(** * triage-party: the server entry point ([cmd/server/main.go])

    A shallow embedding of [main], [calculateSiteName] and [findPath],
    together with the few functions of Go's [strings], [fmt] and
    [path/filepath] packages that they call, and the properties of the
    start-up sequence, the dry-run gate, the shutdown handler, the update
    loop goroutine, the cache path, the listen address and the site name.

    Go strings are byte sequences: they are modelled as [string].  A nil
    slice and an empty slice are both the empty list.  An [error] is its
    message; the nil error is [None]. *)

From stdpp Require Import base option list strings gmap fin_maps pretty.
From Stdlib Require Import Ascii ZArith Lia.

Open Scope Z_scope.

(** ** Go's [strings] package *)

Module strings.

(** [strings.HasPrefix(s, prefix)]. *)
Fixpoint HasPrefix (s prefix : string) : bool :=
  match prefix, s with
  | EmptyString, _ => true
  | String _ _, EmptyString => false
  | String p prefix', String c s' =>
      if decide (p = c) then HasPrefix s' prefix' else false
  end.

(** The loop of [genSplit] for a non-empty separator: [cur] holds the
    bytes of the current piece in reverse, [skip] the number of bytes of
    a separator found at an earlier position that are still to be
    dropped. *)
Fixpoint split_go (sep : string) (skip : nat) (cur : string) (s : string)
  : list string :=
  match s with
  | EmptyString => [String.rev cur]
  | String c s' =>
      match skip with
      | S k => split_go sep k cur s'
      | O =>
          if HasPrefix s sep
          then String.rev cur :: split_go sep (String.length sep - 1) "" s'
          else split_go sep 0 (String c cur) s'
      end
  end.

(** [explode], for the empty separator, which [main.go] never splits at:
    one string per byte.  Go cuts after each UTF-8 sequence, so this is
    Go's function on ASCII text only; no property below rests on it. *)
Fixpoint explode (s : string) : list string :=
  match s with
  | EmptyString => []
  | String c s' => String c "" :: explode s'
  end.

(** [strings.Split(s, sep)]. *)
Definition Split (s sep : string) : list string :=
  match sep with
  | EmptyString => explode s
  | String _ _ => split_go sep 0 "" s
  end.

(** [strings.Join(elems, sep)]. *)
Fixpoint Join (elems : list string) (sep : string) : string :=
  match elems with
  | [] => ""
  | [x] => x
  | x :: rest => x +:+ sep +:+ Join rest sep
  end.

End strings.

(** ** Go's [path/filepath] package (Unix) *)

Module filepath.

Definition Separator : ascii := "/"%char.

Fixpoint drop_separators (cs : list ascii) : list ascii :=
  match cs with
  | c :: cs' => if decide (c = Separator) then drop_separators cs' else cs
  | [] => []
  end.

Fixpoint take_element (cs : list ascii) : list ascii :=
  match cs with
  | c :: cs' => if decide (c = Separator) then [] else c :: take_element cs'
  | [] => []
  end.

(** [filepath.Base(path)]: the last element of the path, after trailing
    separators are removed; ["."] for the empty path and ["/"] for a path
    of separators only.  The two loops of the source run from the end of
    the string, here over the reversed list of bytes. *)
Definition Base (path : string) : string :=
  if decide (path = "") then "."
  else
    let stripped := drop_separators (reverse (String.list_ascii_of_string path)) in
    let elem := String.string_of_list_ascii (reverse (take_element stripped)) in
    if decide (elem = "") then String Separator "" else elem.

End filepath.

(** ** [fmt.Sprintf] at the two formats of [main] *)

Module fmt.

(** [fmt.Sprintf(":%s", s)]. *)
Definition Sprintf_colon_s (s : string) : string := ":" +:+ s.

(** [fmt.Sprintf(":%d", n)]: the decimal digits of [n], with a minus sign
    for a negative number. *)
Definition Sprintf_colon_d (n : Z) : string := ":" +:+ pretty n.

End fmt.

(** ** The packages of the repository that [main] drives

    [pkg/triage], [pkg/initcache], [pkg/updater] and [pkg/site] are used
    through their exported types and calls only.  The records keep the
    fields that [main] sets; a field holding a handle (the GitHub client,
    the cache, the party, the updater) is left out.  A [time.Duration] is
    its number of nanoseconds. *)

Definition error : Type := string.

Module triage.
Record Rule := { Repos : list string }.
Record Config := { Config_Repos : list string; MemberRefresh : Z }.
End triage.

(** The field [Type] of [initcache.Config] is [Type_] here. *)
Module initcache.
Record Config := { Type_ : string; Path : string }.
End initcache.

Module updater.
Record Config := { MinRefresh : Z; MaxRefresh : Z }.
End updater.

Module site.
Record Config := { BaseDirectory : string; WarnAge : Z; Name : string }.
End site.

(** ** Flags: the package-level variables of [main.go], after [flag.Parse] *)

Record Flags := {
  configPath : string;
  initCachePath : string;
  reposOverride : string;
  githubTokenFile : string;
  siteDir : string;
  thirdPartyDir : string;
  dryRun : bool;
  port : Z;
  siteName : string;
  maxRefresh : Z;
  minRefresh : Z;
  memberRefresh : Z
}.

(** ** Events, results and the process monad *)

Inductive signal := SIGINT | SIGTERM | SIGHUP.

(** [os.Interrupt] and [syscall.SIGTERM]. *)
Definition os_Interrupt : signal := SIGINT.
Definition syscall_SIGTERM : signal := SIGTERM.

(** The two goroutines that [main] starts. *)
Inductive goroutine := GoSignal | GoLoop.

(** The operands of a log or print call, kept next to the format. *)
Inductive arg :=
| AStr (s : string)
| AInt (n : Z)
| AErr (e : option error)
| ASig (s : signal)
| AUpdater (cfg : updater.Config).

Inductive handler := Collection | Root.

Inductive event :=
| EvInitFlags
| EvFlagParse
| EvInfof (format : string) (args : list arg)
| EvErrorf (format : string) (args : list arg)
| EvExitf (format : string) (args : list arg)
| EvMustReadToken (path env : string)
| EvNewClient (token : string)
| EvOpen (path : string)
| EvInitcacheNew (cfg : initcache.Config)
| EvInitialize
| EvTriageNew (cfg : triage.Config)
| EvLoad
| EvListRules
| EvSave
| EvUpdaterNew (cfg : updater.Config)
| EvRunOnce (force : bool)
| EvNotify (sigs : list signal)
| EvGo (g : goroutine)
| EvLoop
| EvSiteNew (cfg : site.Config)
| EvHandle (pattern : string) (dir : list string)
| EvHandleFunc (pattern : string) (h : handler)
| EvPrintf (format : string) (args : list arg)
| EvListenAndServe (addr : string).

(** How a thread of the process stands after its events: it returned a
    value, it called [os.Exit], it panicked, or it waits for ever (a
    receive on a channel nobody closes, a call that does not return). *)
Inductive result (A : Type) :=
| Ret (a : A)
| Exit (code : Z)
| Panic (e : error)
| Blocked.
Arguments Ret {A} a.
Arguments Exit {A} code.
Arguments Panic {A} e.
Arguments Blocked {A}.

Definition Proc (A : Type) : Type := list event * result A.

#[global] Instance Proc_ret : MRet Proc := λ A a, ([], Ret a).

(** Sequencing: the events of the first part, then those of the second;
    after an exit, a panic or a wait for ever nothing follows. *)
#[global] Instance Proc_bind : MBind Proc := λ A B f m,
  match m with
  | (tr, Ret a) => let '(tr', r) := f a in (tr ++ tr', r)
  | (tr, Exit c) => (tr, Exit c)
  | (tr, Panic e) => (tr, Panic e)
  | (tr, Blocked) => (tr, Blocked)
  end.

Definition emit (e : event) : Proc unit := ([e], Ret tt).

(** A call into another package: the event and what the call returned. *)
Definition call {A} (e : event) (r : A) : Proc A := ([e], Ret r).

Definition os_Exit {A} (code : Z) : Proc A := ([], Exit code).
Definition panic {A} (e : error) : Proc A := ([], Panic e).
Definition block {A} : Proc A := ([], Blocked).

Module klog.
Definition Infof (format : string) (args : list arg) : Proc unit :=
  emit (EvInfof format args).
Definition Errorf (format : string) (args : list arg) : Proc unit :=
  emit (EvErrorf format args).
(** [klog.Exitf] logs and calls [os.Exit(1)]. *)
Definition Exitf {A} (format : string) (args : list arg) : Proc A :=
  ([EvExitf format args], Exit 1).
End klog.

(** ** The world outside [main.go]

    What the operating system and the other packages answer in one run.
    A run has one [range] statement over a map, in [calculateSiteName], and
    [range_order] is the order in which that one statement visits the keys
    of the map it gets; two runs are two worlds, each with its own order. *)

Record World := {
  env : gmap string string;
  stat_ok : string → bool;
  getwd : error + string;
  read_token : option string;
  open_err : option error;
  initialize_err : option error;
  load_err : option error;
  list_rules : error + list triage.Rule;
  range_order : gmap string bool → list string;
  save_err : option error;
  run_once_err : option error;
  loop_ret : option (option error);
  signals : list signal;
  shutdown_save_err : option error;
  listen_ret : option error
}.

(** [os.Getenv]: the empty string for a variable that is not set. *)
Definition os_Getenv (w : World) (key : string) : string :=
  default "" (env w !! key).

(** A [range] over a Go map visits every key once, in no fixed order. *)
Definition range_fair (w : World) : Prop :=
  ∀ m : gmap string bool, range_order w m ≡ₚ (map_to_list m).*1.

(** A 64-bit signed integer operation wraps around. *)
Definition wrap64 (z : Z) : Z := (z + 2 ^ 63) `mod` 2 ^ 64 - 2 ^ 63.

(** ** [main.go] *)

Section Server.

(** [initcache.DefaultDiskPath]: [pkg/initcache] is not part of this
    development, the function is a parameter of it. *)
Variable DefaultDiskPath : string → string → string.

(** [triage.MustReadToken(path, env)] returns the token or ends the
    process; [read_token] is [None] in a run where it ends it. *)
Definition MustReadToken (w : World) (path envname : string) : Proc string :=
  emit (EvMustReadToken path envname);;
  match read_token w with
  | Some token => mret token
  | None => os_Exit 1
  end.

(** [findPath] tries to find the right place for a file. *)
Definition findPath (w : World) (p : string) : Proc string :=
  if stat_ok w p then mret p
  else
    match getwd w with
    | inl err => klog.Errorf "crazy: %v" [AErr (Some err)];; mret p
    | inr wd =>
        if decide (filepath.Base wd = "server") then
          let tp := "../../" +:+ p in
          if stat_ok w tp then mret tp else mret p
        else mret p
    end.

(** The body of the inner loop of [calculateSiteName]:
    [seen[parts[len(parts)-1]] = true].  An index out of range is a
    panic, here [None]. *)
Definition mark_repo (seen : gmap string bool) (r : string)
  : option (gmap string bool) :=
  let parts := strings.Split r "/" in
  n ← parts !! (length parts - 1)%nat;
  Some (<[n := true]> seen).

Fixpoint mark_repos (seen : gmap string bool) (rs : list string)
  : option (gmap string bool) :=
  match rs with
  | [] => Some seen
  | r :: rs' => seen' ← mark_repo seen r; mark_repos seen' rs'
  end.

Fixpoint mark_rules (seen : gmap string bool) (ts : list triage.Rule)
  : option (gmap string bool) :=
  match ts with
  | [] => Some seen
  | t :: ts' => seen' ← mark_repos seen (triage.Repos t); mark_rules seen' ts'
  end.

(** [calculateSiteName] calculates a user-friendly site name based on
    repositories.  The second loop ranges over the map [seen], in the
    order [range_order w] of this run. *)
Definition calculateSiteName (w : World) (ts : list triage.Rule)
  : option string :=
  seen ← mark_rules ∅ ts;
  let names := range_order w seen in
  Some (strings.Join names " + ").

(** Lines 77-80: the local [cachePath]. *)
Definition cachePath (fl : Flags) : string :=
  let cachePath := initCachePath fl in
  if decide (cachePath = "")
  then DefaultDiskPath (configPath fl) (reposOverride fl)
  else cachePath.

(** Lines 88-96: the local [cfg]. *)
Definition cfg (fl : Flags) : triage.Config :=
  let cfg := {| triage.Config_Repos := [];
                triage.MemberRefresh := memberRefresh fl |} in
  if decide (reposOverride fl ≠ "")
  then {| triage.Config_Repos := strings.Split (reposOverride fl) ",";
          triage.MemberRefresh := triage.MemberRefresh cfg |}
  else cfg.

(** Lines 109-112: the local [sn]. *)
Definition sn (fl : Flags) (w : World) (ts : list triage.Rule) : Proc string :=
  let sn := siteName fl in
  if decide (sn = "") then
    match calculateSiteName w ts with
    | Some name => mret name
    | None => panic "index out of range"
    end
  else mret sn.

(** Lines 168-171: the local [listenAddr]. *)
Definition listenAddr (fl : Flags) (w : World) : string :=
  let listenAddr := fmt.Sprintf_colon_s (os_Getenv w "PORT") in
  if decide (listenAddr = ":")
  then fmt.Sprintf_colon_d (port fl)
  else listenAddr.

(** [if err != nil { klog.Exitf(format, args...) }]. *)
Definition exit_on (err : option error) (format : string) (args : list arg)
  : Proc unit :=
  match err with
  | Some _ => klog.Exitf format args
  | None => mret tt
  end.

(** Lines 139-147: the goroutine that waits for a signal.  [range sigc]
    takes the signals of this run in turn; the channel is never closed,
    so after the last one the goroutine waits. *)
Fixpoint go_signal_loop (w : World) (sigc : list signal) : Proc unit :=
  match sigc with
  | [] => block
  | sig :: sigc' =>
      klog.Infof "signal caught: %v" [ASig sig];;
      err ← call EvSave (shutdown_save_err w);
      match err with
      | Some _ => klog.Errorf "save errro: %v" [AErr err]
      | None => mret tt
      end;;
      (os_Exit 0 : Proc unit);;
      go_signal_loop w sigc'
  end.

Definition go_signal (w : World) : Proc unit :=
  go_signal_loop w (signals w).

(** Lines 149-153: the goroutine that runs the update loop.  [loop_ret]
    is [None] in a run where [Loop] does not return. *)
Definition go_loop (w : World) : Proc unit :=
  emit EvLoop;;
  match loop_ret w with
  | None => block
  | Some err =>
      if decide (err = None)
      then klog.Exitf "loop failed: %v" [AErr err]
      else mret tt
  end.

Definition main (fl : Flags) (w : World) : Proc unit :=
  emit EvInitFlags;;
  emit EvFlagParse;;
  (if decide (configPath fl = "")
   then klog.Exitf "--config is required" []
   else mret tt);;
  token ← MustReadToken w (githubTokenFile fl) "GITHUB_TOKEN";
  emit (EvNewClient token);;
  p ← findPath w (configPath fl);
  err ← call (EvOpen p) (open_err w);
  exit_on err "open %s: %v" [AStr (configPath fl); AErr err];;
  let cachePath := cachePath fl in
  klog.Infof "cache path: %s" [AStr cachePath];;
  emit (EvInitcacheNew {| initcache.Type_ := "disk";
                          initcache.Path := cachePath |});;
  err ← call EvInitialize (initialize_err w);
  exit_on err "initcache load to %s: %v" [AStr cachePath; AErr err];;
  emit (EvTriageNew (cfg fl));;
  err ← call EvLoad (load_err w);
  exit_on err "load from %s: %v" [AStr (configPath fl); AErr err];;
  r ← call EvListRules (list_rules w);
  ts ← match r with
       | inl err => klog.Exitf "list rules: %v" [AErr (Some err)]
       | inr ts => mret ts
       end;
  klog.Infof "Loaded %d rules" [AInt (Z.of_nat (length ts))];;
  sn ← sn fl w ts;
  (* Make sure save works *)
  err ← call EvSave (save_err w);
  exit_on err "initcache save to %s: %v" [AStr cachePath; AErr err];;
  let u := {| updater.MinRefresh := minRefresh fl;
              updater.MaxRefresh := maxRefresh fl |} in
  emit (EvUpdaterNew u);;
  (if dryRun fl then
     klog.Infof "Updating ..." [];;
     err ← call (EvRunOnce true) (run_once_err w);
     exit_on err "run failed: %v" [AErr err];;
     (os_Exit 0 : Proc unit)
   else mret tt);;
  klog.Infof "Starting update loop: %+v" [AUpdater u];;
  emit (EvNotify [os_Interrupt; syscall_SIGTERM]);;
  emit (EvGo GoSignal);;
  emit (EvGo GoLoop);;
  d ← findPath w (siteDir fl);
  emit (EvSiteNew {| site.BaseDirectory := d;
                     site.WarnAge := wrap64 (2 * maxRefresh fl);
                     site.Name := sn |});;
  d ← findPath w (thirdPartyDir fl);
  emit (EvHandle "/third_party/" [d]);;
  d ← findPath w (siteDir fl);
  emit (EvHandle "/static/" [d; "static"]);;
  emit (EvHandleFunc "/s/" Collection);;
  emit (EvHandleFunc "/" Root);;
  let listenAddr := listenAddr fl w in
  emit (EvPrintf "\n\n*** teaparty is listening at %s ... ***\n\n"
          [AStr listenAddr]);;
  emit (EvListenAndServe listenAddr);;
  (* [http.ListenAndServe] returns a non-nil error, when it returns *)
  match listen_ret w with
  | None => block
  | Some err => panic err
  end.

(** ** The process: [main] and the goroutines it started *)

Definition body (w : World) (g : goroutine) : Proc unit :=
  match g with
  | GoSignal => go_signal w
  | GoLoop => go_loop w
  end.

Inductive ending := Exited (code : Z) | Crashed (e : error).

(** What ends the process in a thread that stands at [r]; a return of
    [main] is an exit with status 0. *)
Definition ends_main (r : result unit) : option ending :=
  match r with
  | Ret _ => Some (Exited 0)
  | Exit c => Some (Exited c)
  | Panic e => Some (Crashed e)
  | Blocked => None
  end.

Definition ends_goroutine (r : result unit) : option ending :=
  match r with
  | Exit c => Some (Exited c)
  | Panic e => Some (Crashed e)
  | Ret _ | Blocked => None
  end.

(** The process can end with [o]: [main] ends so, or a goroutine that
    [main] has started does. *)
Definition process_ends (fl : Flags) (w : World) (o : ending) : Prop :=
  ends_main (main fl w).2 = Some o
  ∨ ∃ g, EvGo g ∈ (main fl w).1 ∧ ends_goroutine (body w g).2 = Some o.

(** The process serves, and nothing in this run ends it. *)
Definition keeps_serving (fl : Flags) (w : World) : Prop :=
  (∃ addr, EvListenAndServe addr ∈ (main fl w).1)
  ∧ (main fl w).2 = Blocked
  ∧ ∀ o, ¬ process_ends fl w o.

End Server.

(** ** Reading a trace *)

Definition is_Load (e : event) : bool :=
  match e with EvLoad => true | _ => false end.

Definition is_Save (e : event) : bool :=
  match e with EvSave => true | _ => false end.

Definition is_RunOnce (e : event) : bool :=
  match e with EvRunOnce _ => true | _ => false end.

Definition is_Notify (e : event) : bool :=
  match e with EvNotify _ => true | _ => false end.

Definition is_TriageNew (e : event) : bool :=
  match e with EvTriageNew _ => true | _ => false end.

Definition is_Go (e : event) : bool :=
  match e with EvGo _ => true | _ => false end.

(** The updater is created or run, a goroutine is started, or the site and
    its HTTP server are set up. *)
Definition starts_serving (e : event) : bool :=
  match e with
  | EvUpdaterNew _ | EvRunOnce _ | EvGo _ | EvLoop | EvSiteNew _
  | EvHandle _ _ | EvHandleFunc _ _ | EvListenAndServe _ => true
  | _ => false
  end.

(** The stages of [main] that come after the cache is initialized. *)
Definition later_stage (e : event) : bool :=
  match e with
  | EvTriageNew _ | EvLoad | EvListRules | EvSave | EvNotify _ => true
  | _ => starts_serving e
  end.

(** The site and the HTTP server. *)
Definition serves (e : event) : bool :=
  match e with
  | EvNotify _ | EvGo _ | EvLoop | EvSiteNew _ | EvHandle _ _
  | EvHandleFunc _ _ | EvListenAndServe _ => true
  | _ => false
  end.

(** Every event of [tr] that satisfies [q] comes after one that satisfies
    [p]. *)
Definition Precedes (p q : event → bool) (tr : list event) : Prop :=
  ∀ pre ev post, tr = pre ++ ev :: post → q ev → ∃ ev', ev' ∈ pre ∧ p ev'.

Fixpoint precedes (p q : event → bool) (tr : list event) : bool :=
  match tr with
  | [] => true
  | e :: tr' => if q e then false else if p e then true else precedes p q tr'
  end.

(** The number of events of [tr] that satisfy [p]. *)
Fixpoint count (p : event → bool) (tr : list event) : nat :=
  match tr with
  | [] => 0
  | e :: tr' => if p e then S (count p tr') else count p tr'
  end.

(** [wp m Q]: the events and the result of [m] satisfy [Q]. *)
Definition wp {A} (m : Proc A) (Q : list event → result A → Prop) : Prop :=
  Q m.1 m.2.

(** ** What the absent packages promise *)

(** Modelled from the spec: the repositories that [pkg/triage], which is
    not part of this development, works on, given the [Config] that [main]
    built and the repositories that the configuration file declares: "an
    override list of repositories that supersedes configuration-declared
    repositories". *)
Definition effective_repos (c : triage.Config) (declared : list string)
  : list string :=
  match triage.Config_Repos c with
  | [] => declared
  | override => override
  end.

(** The base name of a repository, as [calculateSiteName] takes it. *)
Definition base_name (r : string) : option string :=
  last (strings.Split r "/").

(** ** Inputs for the examples *)

(** A path function for the examples: every byte of the configuration
    path after a [+], then a [-] and the override. *)
Fixpoint quoted_path (c r : string) : string :=
  match c with
  | EmptyString => String "-" r
  | String a c' => String "+" (String a (quoted_path c' r))
  end.

Definition fl_serve : Flags :=
  {| configPath := "config/examples/minikube.yaml"; initCachePath := "";
     reposOverride := ""; githubTokenFile := ""; siteDir := "site/";
     thirdPartyDir := "third_party/"; dryRun := false; port := 8080;
     siteName := ""; maxRefresh := 3600000000000; minRefresh := 60000000000;
     memberRefresh := 86400000000000 |}.

Definition fl_dry : Flags :=
  {| configPath := "config/examples/minikube.yaml";
     initCachePath := "/tmp/tp.cache";
     reposOverride := "kubernetes/minikube,google/triage-party";
     githubTokenFile := "/etc/token"; siteDir := "site/";
     thirdPartyDir := "third_party/"; dryRun := true; port := 8080;
     siteName := "Triage"; maxRefresh := 3600000000000;
     minRefresh := 60000000000; memberRefresh := 86400000000000 |}.

Definition fl_no_config : Flags :=
  {| configPath := ""; initCachePath := ""; reposOverride := "";
     githubTokenFile := ""; siteDir := "site/";
     thirdPartyDir := "third_party/"; dryRun := false; port := 8080;
     siteName := ""; maxRefresh := 3600000000000; minRefresh := 60000000000;
     memberRefresh := 86400000000000 |}.

Definition rules_example : list triage.Rule :=
  [ {| triage.Repos := ["kubernetes/minikube"; "google/triage-party"] |};
    {| triage.Repos := ["kubernetes/minikube"] |} ].

(** A run where every call succeeds, [Loop] does not return, no signal
    arrives and the server keeps listening. *)
Definition w_good : World :=
  {| env := ∅; stat_ok := λ _, true; getwd := inr "/src/triage-party";
     read_token := Some "0123456789abcdef"; open_err := None;
     initialize_err := None; load_err := None;
     list_rules := inr rules_example;
     range_order := λ m, (map_to_list m).*1;
     save_err := None; run_once_err := None; loop_ret := None;
     signals := []; shutdown_save_err := None; listen_ret := None |}.

Definition with_initialize_err (e : error) (w : World) : World :=
  {| env := env w; stat_ok := stat_ok w; getwd := getwd w;
     read_token := read_token w; open_err := open_err w;
     initialize_err := Some e; load_err := load_err w;
     list_rules := list_rules w; range_order := range_order w;
     save_err := save_err w; run_once_err := run_once_err w;
     loop_ret := loop_ret w; signals := signals w;
     shutdown_save_err := shutdown_save_err w; listen_ret := listen_ret w |}.

Definition with_save_err (e : error) (w : World) : World :=
  {| env := env w; stat_ok := stat_ok w; getwd := getwd w;
     read_token := read_token w; open_err := open_err w;
     initialize_err := initialize_err w; load_err := load_err w;
     list_rules := list_rules w; range_order := range_order w;
     save_err := Some e; run_once_err := run_once_err w;
     loop_ret := loop_ret w; signals := signals w;
     shutdown_save_err := shutdown_save_err w; listen_ret := listen_ret w |}.

Definition with_run_once_err (e : error) (w : World) : World :=
  {| env := env w; stat_ok := stat_ok w; getwd := getwd w;
     read_token := read_token w; open_err := open_err w;
     initialize_err := initialize_err w; load_err := load_err w;
     list_rules := list_rules w; range_order := range_order w;
     save_err := save_err w; run_once_err := Some e;
     loop_ret := loop_ret w; signals := signals w;
     shutdown_save_err := shutdown_save_err w; listen_ret := listen_ret w |}.

Definition with_loop_ret (r : option error) (w : World) : World :=
  {| env := env w; stat_ok := stat_ok w; getwd := getwd w;
     read_token := read_token w; open_err := open_err w;
     initialize_err := initialize_err w; load_err := load_err w;
     list_rules := list_rules w; range_order := range_order w;
     save_err := save_err w; run_once_err := run_once_err w;
     loop_ret := Some r; signals := signals w;
     shutdown_save_err := shutdown_save_err w; listen_ret := listen_ret w |}.

Definition with_signal (sig : signal) (err : option error) (w : World) : World :=
  {| env := env w; stat_ok := stat_ok w; getwd := getwd w;
     read_token := read_token w; open_err := open_err w;
     initialize_err := initialize_err w; load_err := load_err w;
     list_rules := list_rules w; range_order := range_order w;
     save_err := save_err w; run_once_err := run_once_err w;
     loop_ret := loop_ret w; signals := [sig];
     shutdown_save_err := err; listen_ret := listen_ret w |}.

Definition with_env (key value : string) (w : World) : World :=
  {| env := <[key := value]> (env w); stat_ok := stat_ok w; getwd := getwd w;
     read_token := read_token w; open_err := open_err w;
     initialize_err := initialize_err w; load_err := load_err w;
     list_rules := list_rules w; range_order := range_order w;
     save_err := save_err w; run_once_err := run_once_err w;
     loop_ret := loop_ret w; signals := signals w;
     shutdown_save_err := shutdown_save_err w; listen_ret := listen_ret w |}.

(** Every call of the start-up succeeds, up to the write-access check. *)
Definition startup_ok (fl : Flags) (w : World) : Prop :=
  configPath fl ≠ "" ∧ is_Some (read_token w) ∧ open_err w = None
  ∧ initialize_err w = None ∧ load_err w = None
  ∧ (∃ ts, list_rules w = inr ts) ∧ save_err w = None.

(** ** More ways to read strings, traces and worlds *)

(** The byte [a] occurs in [s]. *)
Fixpoint has_byte (a : ascii) (s : string) : bool :=
  match s with
  | EmptyString => false
  | String c s' => if decide (c = a) then true else has_byte a s'
  end.

(** The number of occurrences of the byte [a] in [s]. *)
Fixpoint count_byte (a : ascii) (s : string) : nat :=
  match s with
  | EmptyString => 0
  | String c s' => if decide (c = a) then S (count_byte a s') else count_byte a s'
  end.

(** [s] without its first [n] bytes. *)
Fixpoint drop_bytes (n : nat) (s : string) : string :=
  match n, s with
  | O, _ => s
  | S _, EmptyString => EmptyString
  | S n', String _ s' => drop_bytes n' s'
  end.

(** The range of a signed 64-bit integer. *)
Definition int64 (z : Z) : Prop := - 2 ^ 63 ≤ z < 2 ^ 63.

Definition is_MustReadToken (e : event) : bool :=
  match e with EvMustReadToken _ _ => true | _ => false end.

Definition is_Open (e : event) : bool :=
  match e with EvOpen _ => true | _ => false end.

Definition is_InitcacheNew (e : event) : bool :=
  match e with EvInitcacheNew _ => true | _ => false end.

Definition is_Initialize (e : event) : bool :=
  match e with EvInitialize => true | _ => false end.

Definition is_ListRules (e : event) : bool :=
  match e with EvListRules => true | _ => false end.

Definition is_SiteNew (e : event) : bool :=
  match e with EvSiteNew _ => true | _ => false end.

Definition is_handler (e : event) : bool :=
  match e with EvHandle _ _ | EvHandleFunc _ _ => true | _ => false end.

Definition is_ListenAndServe (e : event) : bool :=
  match e with EvListenAndServe _ => true | _ => false end.

(** The cache is created or used. *)
Definition uses_cache (e : event) : bool :=
  match e with
  | EvInitcacheNew _ | EvInitialize | EvSave => true
  | _ => false
  end.

(** The handlers of a trace, in the order of their registration. *)
Fixpoint handlers (tr : list event) : list event :=
  match tr with
  | [] => []
  | e :: tr' => if is_handler e then e :: handlers tr' else handlers tr'
  end.

(** The value that [findPath] returns, when it returns one. *)
Definition returned {A} (m : Proc A) : option A :=
  match m.2 with
  | Ret a => Some a
  | _ => None
  end.

Definition with_files (exists_ : string → bool) (wd : error + string)
    (w : World) : World :=
  {| env := env w; stat_ok := exists_; getwd := wd;
     read_token := read_token w; open_err := open_err w;
     initialize_err := initialize_err w; load_err := load_err w;
     list_rules := list_rules w; range_order := range_order w;
     save_err := save_err w; run_once_err := run_once_err w;
     loop_ret := loop_ret w; signals := signals w;
     shutdown_save_err := shutdown_save_err w; listen_ret := listen_ret w |}.

Definition with_open_err (e : error) (w : World) : World :=
  {| env := env w; stat_ok := stat_ok w; getwd := getwd w;
     read_token := read_token w; open_err := Some e;
     initialize_err := initialize_err w; load_err := load_err w;
     list_rules := list_rules w; range_order := range_order w;
     save_err := save_err w; run_once_err := run_once_err w;
     loop_ret := loop_ret w; signals := signals w;
     shutdown_save_err := shutdown_save_err w; listen_ret := listen_ret w |}.

Definition with_load_err (e : error) (w : World) : World :=
  {| env := env w; stat_ok := stat_ok w; getwd := getwd w;
     read_token := read_token w; open_err := open_err w;
     initialize_err := initialize_err w; load_err := Some e;
     list_rules := list_rules w; range_order := range_order w;
     save_err := save_err w; run_once_err := run_once_err w;
     loop_ret := loop_ret w; signals := signals w;
     shutdown_save_err := shutdown_save_err w; listen_ret := listen_ret w |}.

Definition with_list_rules (r : error + list triage.Rule) (w : World) : World :=
  {| env := env w; stat_ok := stat_ok w; getwd := getwd w;
     read_token := read_token w; open_err := open_err w;
     initialize_err := initialize_err w; load_err := load_err w;
     list_rules := r; range_order := range_order w;
     save_err := save_err w; run_once_err := run_once_err w;
     loop_ret := loop_ret w; signals := signals w;
     shutdown_save_err := shutdown_save_err w; listen_ret := listen_ret w |}.

Definition with_listen_ret (e : error) (w : World) : World :=
  {| env := env w; stat_ok := stat_ok w; getwd := getwd w;
     read_token := read_token w; open_err := open_err w;
     initialize_err := initialize_err w; load_err := load_err w;
     list_rules := list_rules w; range_order := range_order w;
     save_err := save_err w; run_once_err := run_once_err w;
     loop_ret := loop_ret w; signals := signals w;
     shutdown_save_err := shutdown_save_err w; listen_ret := Some e |}.

(** Only the files under [triage-party/] exist and the process runs in
    [triage-party/cmd/server]. *)
Definition w_in_server : World :=
  with_files (λ p, bool_decide (p = "../../site/" ∨ p = "../../third_party/"
                                ∨ p = "../../config.yaml"))
    (inr "/src/triage-party/cmd/server") w_good.

(** The base names of the repositories of the rules, in the order of the
    two loops of [calculateSiteName]. *)
Definition base_names (ts : list triage.Rule) : list string :=
  omap base_name (mjoin (triage.Repos <$> ts)).

(** A run like [w_good] whose [range] statement visits the keys in the
    opposite order. *)
Definition w_reversed : World :=
  {| env := env w_good; stat_ok := stat_ok w_good; getwd := getwd w_good;
     read_token := read_token w_good; open_err := open_err w_good;
     initialize_err := initialize_err w_good; load_err := load_err w_good;
     list_rules := list_rules w_good;
     range_order := λ m, reverse (map_to_list m).*1;
     save_err := save_err w_good; run_once_err := run_once_err w_good;
     loop_ret := loop_ret w_good; signals := signals w_good;
     shutdown_save_err := shutdown_save_err w_good;
     listen_ret := listen_ret w_good |}.

(** * Properties *)

(** ** The library functions on given inputs *)

Example Split_repos :
  strings.Split "kubernetes/minikube,google/triage-party" ","
  = ["kubernetes/minikube"; "google/triage-party"].
Proof. reflexivity. Qed.

Example Split_empty : strings.Split "" "," = [""].
Proof. reflexivity. Qed.

Example Split_trailing : strings.Split "a//b/" "/" = ["a"; ""; "b"; ""].
Proof. reflexivity. Qed.

Example Split_long_sep : strings.Split "a + b + c" " + " = ["a"; "b"; "c"].
Proof. reflexivity. Qed.

Example Join_three : strings.Join ["a"; "b"; "c"] " + " = "a + b + c".
Proof. reflexivity. Qed.

Example Base_server : filepath.Base "/src/triage-party/cmd/server/" = "server".
Proof. reflexivity. Qed.

Example Base_root : filepath.Base "///" = "/".
Proof. reflexivity. Qed.

Example Sprintf_port : fmt.Sprintf_colon_d 8080 = ":8080".
Proof. reflexivity. Qed.

(** ** The process monad *)

Lemma wp_run {A} (m : Proc A) (Q : list event → result A → Prop) :
  wp m Q → ∀ tr r, m = (tr, r) → Q tr r.
Proof. by intros H tr r ->. Qed.

Lemma wp_bind {A B} (m : Proc A) (f : A → Proc B) Q :
  wp m (λ tr r,
      match r with
      | Ret a => wp (f a) (λ tr' r', Q (tr ++ tr') r')
      | Exit c => Q tr (Exit c)
      | Panic e => Q tr (Panic e)
      | Blocked => Q tr Blocked
      end) →
  wp (m ≫= f) Q.
Proof.
  destruct m as [tr [a| c | e |]]; unfold wp, mbind, Proc_bind; simpl; try done.
  by destruct (f a).
Qed.

Lemma wp_pair {A} tr (r : result A) (Q : list event → result A → Prop) :
  Q tr r → wp (tr, r) Q.
Proof. done. Qed.

Lemma wp_ret {A} (a : A) (Q : list event → result A → Prop) :
  Q [] (Ret a) → wp (mret a) Q.
Proof. done. Qed.

(** ** Go's [strings] package *)

Lemma split_go_not_nil sep skip cur s : strings.split_go sep skip cur s ≠ [].
Proof.
  revert skip cur. induction s as [|c s IH]; intros skip cur; simpl; [done|].
  destruct skip; [|apply IH].
  case_match; [done|apply IH].
Qed.

Lemma Split_not_nil s sep : sep ≠ "" → strings.Split s sep ≠ [].
Proof. destruct sep; [done|]. intros _. apply split_go_not_nil. Qed.

Lemma Split_comma_not_nil s : strings.Split s "," ≠ [].
Proof. by apply Split_not_nil. Qed.

Lemma base_name_is_Some r : is_Some (base_name r).
Proof.
  unfold base_name.
  destruct (strings.Split r "/") as [|x l] eqn:E.
  - by apply Split_not_nil in E.
  - rewrite last_cons. destruct (last l); eauto.
Qed.

(** ** [findPath] and [calculateSiteName] *)

Lemma findPath_cases w p :
  ∃ p', findPath w p = ([], Ret p')
        ∨ ∃ err, findPath w p = ([EvErrorf "crazy: %v" [AErr (Some err)]], Ret p').
Proof.
  unfold findPath. destruct (stat_ok w p); [by eauto|].
  destruct (getwd w) as [err|wd]; [by eauto|].
  destruct (decide _); [|by eauto].
  destruct (stat_ok w _); eauto.
Qed.

Lemma wp_findPath w p (Q : list event → result string → Prop) :
  (∀ p', Q [] (Ret p')) →
  (∀ p' err, Q [EvErrorf "crazy: %v" [AErr (Some err)]] (Ret p')) →
  wp (findPath w p) Q.
Proof.
  intros H1 H2. destruct (findPath_cases w p) as [p' [-> | [err ->]]]; apply wp_pair; auto.
Qed.

Lemma mark_repo_spec seen r :
  ∃ n, base_name r = Some n ∧ mark_repo seen r = Some (<[n := true]> seen).
Proof.
  destruct (base_name_is_Some r) as [n Hn]. exists n. split; [done|].
  unfold mark_repo, base_name in *. rewrite last_lookup in Hn.
  replace (length (strings.Split r "/") - 1)%nat
    with (pred (length (strings.Split r "/"))) by lia.
  by rewrite Hn.
Qed.

Lemma mark_repos_spec rs : ∀ seen,
  ∃ seen', mark_repos seen rs = Some seen'
    ∧ ∀ n, is_Some (seen' !! n)
           ↔ is_Some (seen !! n) ∨ ∃ r, r ∈ rs ∧ base_name r = Some n.
Proof.
  induction rs as [|r rs IH]; intros seen; simpl.
  - exists seen. split; [done|]. intros n. split; [auto|].
    intros [?|(r & Hr & _)]; [done|]. by apply elem_of_nil in Hr.
  - destruct (mark_repo_spec seen r) as (n0 & Hb & ->). simpl.
    destruct (IH (<[n0 := true]> seen)) as (seen' & -> & Hseen').
    exists seen'. split; [done|]. intros n. rewrite Hseen'.
    rewrite lookup_insert_is_Some. split.
    + intros [[-> | [_ ?]] | (r' & Hr' & Hn)]; [|by left|].
      * right. exists r. split; [left|done].
      * right. exists r'. split; [by right|done].
    + intros [? | (r' & Hr' & Hn)].
      * left. destruct (decide (n0 = n)); [by left|by right].
      * apply elem_of_cons in Hr' as [-> | Hr'].
        -- left. left. congruence.
        -- right. eauto.
Qed.

Lemma mark_rules_spec ts : ∀ seen,
  ∃ seen', mark_rules seen ts = Some seen'
    ∧ ∀ n, is_Some (seen' !! n)
           ↔ is_Some (seen !! n)
             ∨ ∃ t r, t ∈ ts ∧ r ∈ triage.Repos t ∧ base_name r = Some n.
Proof.
  induction ts as [|t ts IH]; intros seen; simpl.
  - exists seen. split; [done|]. intros n. split; [auto|].
    intros [?|(t & r & Ht & _)]; [done|]. by apply elem_of_nil in Ht.
  - destruct (mark_repos_spec (triage.Repos t) seen) as (seen1 & -> & H1). simpl.
    destruct (IH seen1) as (seen' & -> & Hseen').
    exists seen'. split; [done|]. intros n. rewrite Hseen', H1. split.
    + intros [[? | (r & Hr & Hn)] | (t' & r & Ht' & Hr & Hn)].
      * by left.
      * right. exists t, r. split; [left|done].
      * right. exists t', r. split; [by right|done].
    + intros [? | (t' & r & Ht' & Hr & Hn)].
      * by left; left.
      * apply elem_of_cons in Ht' as [-> | Ht'].
        -- left. right. eauto.
        -- right. eauto.
Qed.

Lemma calculateSiteName_spec w ts :
  ∃ seen, mark_rules ∅ ts = Some seen
    ∧ calculateSiteName w ts = Some (strings.Join (range_order w seen) " + ")
    ∧ ∀ n, is_Some (seen !! n)
           ↔ ∃ t r, t ∈ ts ∧ r ∈ triage.Repos t ∧ base_name r = Some n.
Proof.
  destruct (mark_rules_spec ts ∅) as (seen & Hm & Hseen).
  exists seen. split; [done|]. split.
  - unfold calculateSiteName. by rewrite Hm.
  - intros n. rewrite Hseen, lookup_empty. split; [|auto].
    intros [[? ?]|?]; done.
Qed.

Lemma sn_returns fl w ts : ∃ name, sn fl w ts = ([], Ret name).
Proof.
  unfold sn. destruct (decide _); [|by eauto].
  destruct (calculateSiteName_spec w ts) as (seen & _ & -> & _). eauto.
Qed.

Lemma wp_sn fl w ts (Q : list event → result string → Prop) :
  (∀ name, sn fl w ts = ([], Ret name) → Q [] (Ret name)) →
  wp (sn fl w ts) Q.
Proof.
  intros H. destruct (sn_returns fl w ts) as [name Hn].
  rewrite Hn. apply wp_pair. auto.
Qed.

(** One step of [main] or of a goroutine: the first call of a sequence is
    run, a test on what the world answered is split in its cases. *)
Ltac wp_step :=
  lazymatch goal with
  | |- wp (mbind _ _) _ => apply wp_bind
  | |- wp (mret _) _ => apply wp_ret
  | |- wp (emit _) _ => apply wp_pair
  | |- wp (call _ _) _ => apply wp_pair
  | |- wp (klog.Infof _ _) _ => apply wp_pair
  | |- wp (klog.Errorf _ _) _ => apply wp_pair
  | |- wp (klog.Exitf _ _) _ => apply wp_pair
  | |- wp (os_Exit _) _ => apply wp_pair
  | |- wp (panic _) _ => apply wp_pair
  | |- wp block _ => apply wp_pair
  | |- wp (exit_on _ _ _) _ => unfold exit_on
  | |- wp (MustReadToken _ _ _) _ => unfold MustReadToken
  | |- wp (findPath _ _) _ => apply wp_findPath; [intros ?|intros ? ?]
  | |- wp (sn _ _ _) _ => apply wp_sn; intros ? ?
  | |- wp (match ?x with _ => _ end) _ => destruct x eqn:?; simplify_eq
  | |- wp (let _ := _ in _) _ => cbv zeta
  end; cbv beta iota.

(** All the runs of a thread [m] named in the goal. *)
Ltac wp_all m :=
  let tr := fresh "tr" in
  let r := fresh "r" in
  let H := fresh "Hrun" in
  destruct m as [tr r] eqn:H; cbn [fst snd];
  revert tr r H; refine (wp_run _ _ _);
  unfold main, go_loop, go_signal; repeat wp_step; cbn [app].

(** A membership in a trace that is written out. *)
Ltac elem_inv :=
  repeat match goal with
    | H : _ ∈ [] |- _ => by apply elem_of_nil in H
    | H : _ ∈ _ :: _ |- _ =>
        apply elem_of_cons in H as [H | H]; [try discriminate H; simplify_eq|]
    end.

Lemma precedes_sound p q tr : precedes p q tr = true → Precedes p q tr.
Proof.
  induction tr as [|e tr IH]; simpl; intros Hp pre ev post Heq Hq.
  - by destruct pre.
  - destruct (q e) eqn:Hqe; [done|].
    destruct pre as [|e' pre]; simplify_eq/=.
    { by rewrite Hqe in Hq. }
    destruct (p e') eqn:Hpe.
    + exists e'. split; [left|]. by rewrite Hpe.
    + destruct (IH Hp pre ev post eq_refl Hq) as (ev' & ? & ?).
      exists ev'. split; [by right|done].
Qed.

(** A membership in the trace of a run on given inputs. *)
Ltac in_trace := vm_compute; by repeat constructor.

Ltac trace_facts :=
  simpl; repeat split; intros; elem_inv; simplify_eq/=; try done;
  try (by repeat constructor).

(** ** The start-up sequence *)

(** C8. With an empty [--config] value the process parses its flags, logs
    that the flag is required and exits with status 1: the token is not
    read, no file is opened and the cache is not created or initialized. *)
Theorem config_is_required ddp fl w :
  configPath fl = "" →
  main ddp fl w
  = ([EvInitFlags; EvFlagParse; EvExitf "--config is required" []], Exit 1).
Proof.
  intros Hc. unfold main.
  destruct (decide (configPath fl = "")); [reflexivity|done].
Qed.

Lemma config_is_required_witness :
  configPath fl_no_config = ""
  ∧ main quoted_path fl_no_config w_good
    = ([EvInitFlags; EvFlagParse; EvExitf "--config is required" []], Exit 1).
Proof.
  split; [reflexivity|]. apply (config_is_required quoted_path fl_no_config w_good).
  reflexivity.
Defined.

(** C3. When [Cache.Initialize] returns an error the process exits with
    status 1 and no later stage is in its trace: the party is not created,
    no rule is loaded or listed, nothing is saved, no updater, goroutine,
    site or HTTP server is started.  The run that reaches [Initialize] ends
    on the fatal log of that error. *)
Theorem initialize_error_is_fatal ddp fl w e :
  initialize_err w = Some e →
  (main ddp fl w).2 = Exit 1
  ∧ Forall (λ ev, later_stage ev = false) (main ddp fl w).1
  ∧ (EvInitialize ∈ (main ddp fl w).1 →
     last (main ddp fl w).1
     = Some (EvExitf "initcache load to %s: %v"
               [AStr (cachePath ddp fl); AErr (Some e)])).
Proof.
  intros He. wp_all (main ddp fl w); trace_facts.
Qed.

Lemma initialize_error_is_fatal_witness :
  initialize_err (with_initialize_err "corrupt cache" w_good) = Some "corrupt cache"
  ∧ EvInitialize ∈ (main quoted_path fl_serve (with_initialize_err "corrupt cache" w_good)).1
  ∧ (main quoted_path fl_serve (with_initialize_err "corrupt cache" w_good)).2 = Exit 1
  ∧ Forall (λ ev, later_stage ev = false)
      (main quoted_path fl_serve (with_initialize_err "corrupt cache" w_good)).1.
Proof.
  split; [reflexivity|]. split; [in_trace|].
  pose proof (initialize_error_is_fatal quoted_path fl_serve
                (with_initialize_err "corrupt cache" w_good) "corrupt cache" eq_refl)
    as (H1 & H2 & _).
  split; [exact H1|exact H2].
Defined.

(** C4. In the trace of [main] the write-access check [Cache.Save] comes
    after the configuration is loaded and before the updater, the goroutines,
    the site and the HTTP server; [main] saves at most once, so exactly one
    save precedes them.  When that save returns an error the process logs
    it, exits with status 1 and has started none of them. *)
Theorem save_precheck ddp fl w :
  Precedes is_Load is_Save (main ddp fl w).1
  ∧ Precedes is_Save starts_serving (main ddp fl w).1
  ∧ (count is_Save (main ddp fl w).1 ≤ 1)%nat
  ∧ (∀ e, save_err w = Some e → EvSave ∈ (main ddp fl w).1 →
       (main ddp fl w).2 = Exit 1
       ∧ last (main ddp fl w).1
         = Some (EvExitf "initcache save to %s: %v"
                   [AStr (cachePath ddp fl); AErr (Some e)])
       ∧ Forall (λ ev, starts_serving ev = false) (main ddp fl w).1).
Proof.
  split; [|split]; [apply precedes_sound..|].
  all: wp_all (main ddp fl w); trace_facts.
Qed.

Lemma save_precheck_witness :
  save_err (with_save_err "read-only file system" w_good)
  = Some "read-only file system"
  ∧ EvSave ∈ (main quoted_path fl_serve (with_save_err "read-only file system" w_good)).1
  ∧ (main quoted_path fl_serve (with_save_err "read-only file system" w_good)).2 = Exit 1
  ∧ count is_Save (main quoted_path fl_serve w_good).1 = 1%nat
  ∧ (∃ addr, EvListenAndServe addr ∈ (main quoted_path fl_serve w_good).1).
Proof.
  split; [reflexivity|]. split; [in_trace|].
  pose proof (save_precheck quoted_path fl_serve
                (with_save_err "read-only file system" w_good)) as (_ & _ & _ & H).
  split.
  - apply (H "read-only file system" eq_refl). in_trace.
  - split; [reflexivity|]. exists ":8080". in_trace.
Defined.

(** ** The dry run *)

(** C2. With [--dry-run] the process always exits, starts no goroutine, no
    site and no HTTP server, and calls [RunOnce] at most once, forced.  In
    the run that reaches it, [RunOnce(ctx, true)] is called exactly once: an
    error from it is logged and the exit status is 1, no error gives the
    exit status 0.  A start-up without error reaches it. *)
Theorem dry_run_gate ddp fl w :
  dryRun fl = true →
  (∃ c, (main ddp fl w).2 = Exit c)
  ∧ Forall (λ ev, serves ev = false) (main ddp fl w).1
  ∧ (count is_RunOnce (main ddp fl w).1 ≤ 1)%nat
  ∧ (∀ force, EvRunOnce force ∈ (main ddp fl w).1 →
       force = true
       ∧ count is_RunOnce (main ddp fl w).1 = 1%nat
       ∧ match run_once_err w with
         | Some e =>
             (main ddp fl w).2 = Exit 1
             ∧ last (main ddp fl w).1
               = Some (EvExitf "run failed: %v" [AErr (Some e)])
         | None =>
             (main ddp fl w).2 = Exit 0
             ∧ last (main ddp fl w).1 = Some (EvRunOnce true)
         end)
  ∧ (startup_ok fl w → EvRunOnce true ∈ (main ddp fl w).1).
Proof.
  intros Hdry. wp_all (main ddp fl w).
  all: simpl; split; [by eauto|]; split; [by repeat constructor|].
  all: split; [simpl; lia|]; split.
  all: try (intros (? & [? ?] & ? & ? & ? & [? ?] & ?);
            first [congruence | by repeat constructor]).
  all: intros; elem_inv; done.
Qed.

Lemma dry_run_gate_witness :
  dryRun fl_dry = true
  ∧ main quoted_path fl_dry w_good
    = ((main quoted_path fl_dry w_good).1, Exit 0)
  ∧ (main quoted_path fl_dry (with_run_once_err "rate limited" w_good)).2 = Exit 1
  ∧ count is_RunOnce (main quoted_path fl_dry w_good).1 = 1%nat.
Proof.
  split; [reflexivity|]. split; [reflexivity|].
  pose proof (dry_run_gate quoted_path fl_dry
                (with_run_once_err "rate limited" w_good) eq_refl)
    as (_ & _ & _ & H & _).
  split.
  - apply (H true). in_trace.
  - reflexivity.
Defined.

(** ** The goroutines *)

(** C5. The goroutine that receives the signals logs the first SIGINT or
    SIGTERM, calls [Cache.Save], logs the error of the save if there is one,
    and exits with status 0 in both cases; it ends the process in no other
    way, so never without the save.  [main] starts it in continuous mode
    only, after it has subscribed to exactly these two signals, and it
    starts it whenever the start-up succeeds. *)
Theorem shutdown_saves_then_exits ddp fl w :
  (∀ sig sigs, signals w = sig :: sigs →
     go_signal w
     = (EvInfof "signal caught: %v" [ASig sig] :: EvSave ::
          match shutdown_save_err w with
          | Some e => [EvErrorf "save errro: %v" [AErr (Some e)]]
          | None => []
          end,
        Exit 0))
  ∧ (∀ o, ends_goroutine (go_signal w).2 = Some o →
       o = Exited 0 ∧ EvSave ∈ (go_signal w).1)
  ∧ (EvGo GoSignal ∈ (main ddp fl w).1 → dryRun fl = false)
  ∧ Precedes is_Notify is_Go (main ddp fl w).1
  ∧ (∀ sigs, EvNotify sigs ∈ (main ddp fl w).1 → sigs = [SIGINT; SIGTERM])
  ∧ (startup_ok fl w → dryRun fl = false → EvGo GoSignal ∈ (main ddp fl w).1).
Proof.
  split; [|split].
  - intros sig sigs Hs. unfold go_signal. rewrite Hs. simpl.
    by destruct (shutdown_save_err w).
  - intros o. unfold go_signal. destruct (signals w) as [|sig sigs]; simpl; [done|].
    destruct (shutdown_save_err w); simpl; intros [= <-].
    all: split; [done|by repeat constructor].
  - split; [|split; [apply precedes_sound|split]].
    all: wp_all (main ddp fl w); simpl; try done.
    all: try (intros; elem_inv; done).
    all: try (intros (? & [? ?] & ? & ? & ? & [? ?] & ?) ?;
              first [congruence | by repeat constructor]).
Qed.

Lemma shutdown_saves_then_exits_witness :
  signals (with_signal SIGTERM (Some "disk full") w_good) = [SIGTERM]
  ∧ go_signal (with_signal SIGTERM (Some "disk full") w_good)
    = ([EvInfof "signal caught: %v" [ASig SIGTERM]; EvSave;
        EvErrorf "save errro: %v" [AErr (Some "disk full")]], Exit 0)
  ∧ go_signal (with_signal SIGINT None w_good)
    = ([EvInfof "signal caught: %v" [ASig SIGINT]; EvSave], Exit 0)
  ∧ EvGo GoSignal ∈ (main quoted_path fl_serve w_good).1.
Proof.
  split; [reflexivity|].
  pose proof (shutdown_saves_then_exits quoted_path fl_serve
                (with_signal SIGTERM (Some "disk full") w_good)) as (H & _).
  split; [exact (H SIGTERM [] eq_refl)|].
  split; [reflexivity|in_trace].
Defined.

(** C1. What the goroutine of the update loop does with the result of
    [Loop]: a non-nil error passes the test [err == nil], nothing is logged,
    the goroutine returns and does not end the process. *)
Theorem loop_error_is_dropped w e :
  loop_ret w = Some (Some e) →
  go_loop w = ([EvLoop], Ret tt) ∧ ends_goroutine (go_loop w).2 = None.
Proof.
  intros H. unfold go_loop. rewrite H. simpl. done.
Qed.

Lemma loop_error_is_dropped_witness :
  loop_ret (with_loop_ret (Some "401 Bad credentials") w_good)
  = Some (Some "401 Bad credentials")
  ∧ go_loop (with_loop_ret (Some "401 Bad credentials") w_good)
    = ([EvLoop], Ret tt)
  ∧ keeps_serving quoted_path fl_serve
      (with_loop_ret (Some "401 Bad credentials") w_good)
  ∧ go_loop (with_loop_ret None w_good)
    = ([EvLoop; EvExitf "loop failed: %v" [AErr None]], Exit 1).
Proof.
  split; [reflexivity|].
  split.
  { apply (loop_error_is_dropped
             (with_loop_ret (Some "401 Bad credentials") w_good)
             "401 Bad credentials" eq_refl). }
  split; [|reflexivity].
  split; [exists ":8080"; in_trace|]. split; [reflexivity|].
  intros o [H | (g & _ & H)]; [by vm_compute in H|].
  destruct g; by vm_compute in H.
Defined.

(** ** The configuration that [main] hands on *)

Lemma effective_repos_override c declared :
  triage.Config_Repos c ≠ [] → effective_repos c declared = triage.Config_Repos c.
Proof. unfold effective_repos. by destruct (triage.Config_Repos c). Qed.

(** C6. With a non-empty [--repos] value the [Config] that [main] gives to
    [triage.New], before the rules are loaded, carries the comma-split of
    that value, which is never the empty list and so replaces the declared
    repositories whatever they are; with the empty value it carries no
    repository and the declared ones stay. *)
Theorem repos_override ddp fl w (declared : list string) :
  (reposOverride fl ≠ "" →
     triage.Config_Repos (cfg fl) = strings.Split (reposOverride fl) ","
     ∧ effective_repos (cfg fl) declared = strings.Split (reposOverride fl) ",")
  ∧ (reposOverride fl = "" →
     triage.Config_Repos (cfg fl) = []
     ∧ effective_repos (cfg fl) declared = declared)
  ∧ (∀ c, EvTriageNew c ∈ (main ddp fl w).1 → c = cfg fl)
  ∧ Precedes is_TriageNew is_Load (main ddp fl w).1.
Proof.
  split; [|split; [|split]].
  - intros Hne. unfold cfg. rewrite decide_True by done. simpl.
    split; [done|]. apply effective_repos_override. simpl.
    apply Split_comma_not_nil.
  - intros He. unfold cfg. rewrite decide_False by (by intros []). done.
  - wp_all (main ddp fl w); intros; elem_inv; done.
  - apply precedes_sound. wp_all (main ddp fl w); done.
Qed.

Lemma repos_override_witness :
  reposOverride fl_dry ≠ ""
  ∧ triage.Config_Repos (cfg fl_dry) = ["kubernetes/minikube"; "google/triage-party"]
  ∧ effective_repos (cfg fl_dry) ["declared/repo"]
    = ["kubernetes/minikube"; "google/triage-party"]
  ∧ reposOverride fl_serve = ""
  ∧ effective_repos (cfg fl_serve) ["declared/repo"] = ["declared/repo"].
Proof.
  split; [done|].
  pose proof (repos_override quoted_path fl_dry w_good ["declared/repo"])
    as (H & _).
  destruct H as [H1 H2]; [done|].
  split; [exact H1|]. split; [exact H2|].
  split; [reflexivity|].
  pose proof (repos_override quoted_path fl_serve w_good ["declared/repo"])
    as (_ & H & _).
  by destruct H.
Defined.

(** ** The listen address *)

(** C9. With [PORT] set to a non-empty string the server listens on a
    colon and that string, whatever [--port] is; with [PORT] unset or empty
    it listens on a colon and the decimal [--port] value.  [main] passes
    this address to [http.ListenAndServe]. *)
Theorem listen_address ddp fl w :
  (∀ p, env w !! "PORT" = Some p → p ≠ "" → listenAddr fl w = ":" +:+ p)
  ∧ (env w !! "PORT" = None ∨ env w !! "PORT" = Some "" →
     listenAddr fl w = ":" +:+ pretty (port fl))
  ∧ (∀ addr, EvListenAndServe addr ∈ (main ddp fl w).1 → addr = listenAddr fl w).
Proof.
  unfold listenAddr, os_Getenv, fmt.Sprintf_colon_s, fmt.Sprintf_colon_d.
  repeat split.
  - intros p -> Hp. simpl. rewrite decide_False; [done|].
    intros [= ?]. done.
  - by intros [-> | ->].
  - fold (os_Getenv w "PORT"). fold (fmt.Sprintf_colon_s (os_Getenv w "PORT")).
    fold (fmt.Sprintf_colon_d (port fl)). fold (listenAddr fl w).
    wp_all (main ddp fl w); intros; elem_inv; done.
Qed.

Lemma listen_address_witness :
  env (with_env "PORT" "9000" w_good) !! "PORT" = Some "9000"
  ∧ listenAddr fl_serve (with_env "PORT" "9000" w_good) = ":9000"
  ∧ env w_good !! "PORT" = None
  ∧ listenAddr fl_serve w_good = ":8080"
  ∧ listenAddr fl_serve (with_env "PORT" "" w_good) = ":8080".
Proof.
  pose proof (listen_address quoted_path fl_serve (with_env "PORT" "9000" w_good))
    as (H1 & _).
  pose proof (listen_address quoted_path fl_serve w_good) as (_ & H2 & _).
  pose proof (listen_address quoted_path fl_serve (with_env "PORT" "" w_good))
    as (_ & H3 & _).
  split; [reflexivity|]. split; [by apply H1|].
  split; [reflexivity|]. split; [apply H2; by left|apply H3; by right].
Defined.

(** ** The site name *)

Lemma elem_of_keys (m : gmap string bool) n :
  n ∈ (map_to_list m).*1 ↔ is_Some (m !! n).
Proof.
  rewrite list_elem_of_fmap. split.
  - intros ([k v] & -> & H). apply elem_of_map_to_list in H. by exists v.
  - intros [v Hv]. exists (n, v). split; [done|]. by apply elem_of_map_to_list.
Qed.

(** C10. With a non-empty [--name] value the site name is that value and
    [calculateSiteName] is not called.  With the empty value the site name
    is the join, with [" + "], of a list without duplicates whose elements
    are exactly the last ["/"]-separated components of the repositories of
    the rules, the map being visited in any order.  This name is the one the
    site is created with. *)
Theorem site_name ddp fl w ts :
  (siteName fl ≠ "" → sn fl w ts = ([], Ret (siteName fl)))
  ∧ (siteName fl = "" → range_fair w →
     ∃ names,
       sn fl w ts = ([], Ret (strings.Join names " + "))
       ∧ calculateSiteName w ts = Some (strings.Join names " + ")
       ∧ NoDup names
       ∧ ∀ n, n ∈ names
              ↔ ∃ t r, t ∈ ts ∧ r ∈ triage.Repos t ∧ base_name r = Some n)
  ∧ (∀ c, EvSiteNew c ∈ (main ddp fl w).1 →
       ∃ ts', list_rules w = inr ts' ∧ sn fl w ts' = ([], Ret (site.Name c))).
Proof.
  split; [|split].
  - intros Hne. unfold sn. by rewrite decide_False.
  - intros He Hfair. unfold sn. rewrite decide_True by done.
    destruct (calculateSiteName_spec w ts) as (seen & _ & -> & Hseen).
    exists (range_order w seen). split; [done|]. split; [done|].
    split.
    + rewrite (Hfair seen). apply NoDup_fst_map_to_list.
    + intros n. rewrite (Hfair seen), elem_of_keys. apply Hseen.
  - wp_all (main ddp fl w); intros; elem_inv; eauto.
Qed.

Lemma range_fair_w_good : range_fair w_good.
Proof. by intros m. Qed.

Lemma site_name_witness :
  siteName fl_serve = "" ∧ range_fair w_good
  ∧ sn fl_serve w_good rules_example = ([], Ret "minikube + triage-party")
  ∧ siteName fl_dry ≠ ""
  ∧ sn fl_dry w_good rules_example = ([], Ret "Triage").
Proof.
  split; [reflexivity|]. split; [exact range_fair_w_good|].
  pose proof (site_name quoted_path fl_dry w_good rules_example) as (H & _).
  split; [reflexivity|]. split; [done|]. by apply H.
Defined.

(** * Further properties of [main.go] *)

(** ** More on Go's [strings] package *)

Lemma append_cons c s t : String c s +:+ t = String c (s +:+ t).
Proof. reflexivity. Qed.

Lemma append_nil_l s : "" +:+ s = s.
Proof. reflexivity. Qed.

Lemma append_nil_r s : s +:+ "" = s.
Proof. induction s as [|c s IH]; [done|]. by rewrite append_cons, IH. Qed.

Lemma append_assoc s1 s2 s3 : (s1 +:+ s2) +:+ s3 = s1 +:+ (s2 +:+ s3).
Proof. induction s1 as [|c s1 IH]; [done|]. by rewrite !append_cons, IH. Qed.

Lemma rev_app_append s1 s2 s3 :
  String.rev_app s1 s2 +:+ s3 = String.rev_app s1 (s2 +:+ s3).
Proof. revert s2. induction s1; intros s2; simpl; [done|]. by rewrite IHs1. Qed.

Lemma rev_snoc c cur s : String.rev (String c cur) +:+ s = String.rev cur +:+ String c s.
Proof. unfold String.rev. simpl. by rewrite !rev_app_append. Qed.

Lemma HasPrefix_drop s sep :
  strings.HasPrefix s sep = true →
  sep +:+ drop_bytes (String.length sep) s = s
  ∧ (String.length sep ≤ String.length s)%nat.
Proof.
  revert s. induction sep as [|a sep IH]; intros [|c s]; simpl; try done.
  - split; [done|lia].
  - destruct (decide (a = c)) as [->|]; [|done].
    intros H. destruct (IH _ H) as [Hd ?]. rewrite append_cons, Hd. split; [done|lia].
Qed.

Lemma Join_cons x l sep :
  l ≠ [] → strings.Join (x :: l) sep = x +:+ sep +:+ strings.Join l sep.
Proof. by destruct l. Qed.

Lemma Join_split_go sep s : ∀ k cur,
  sep ≠ "" → (k ≤ String.length s)%nat →
  strings.Join (strings.split_go sep k cur s) sep
  = String.rev cur +:+ drop_bytes k s.
Proof.
  induction s as [|c s IH]; intros k cur Hsep Hk.
  - simpl in *. replace k with 0%nat by lia. simpl. by rewrite append_nil_r.
  - destruct k as [|k]; cbn [strings.split_go drop_bytes].
    + destruct (strings.HasPrefix (String c s) sep) eqn:Hp.
      * rewrite Join_cons by apply split_go_not_nil.
        destruct (HasPrefix_drop _ _ Hp) as [Hd Hl].
        destruct sep as [|a sep]; [done|]. simpl in Hl.
        rewrite IH by (done || simpl; lia).
        replace (String.length (String a sep) - 1)%nat
          with (String.length sep) by (simpl; lia).
        change (drop_bytes (String.length (String a sep)) (String c s))
          with (drop_bytes (String.length sep) s) in Hd.
        change (String.rev "") with "". rewrite append_nil_l. by rewrite Hd.
      * rewrite IH by (done || simpl in *; lia). apply rev_snoc.
    + apply IH; [done|simpl in *; lia].
Qed.

Lemma Join_Split s sep :
  sep ≠ "" → strings.Join (strings.Split s sep) sep = s.
Proof.
  destruct sep as [|a sep]; [done|]. intros _. simpl.
  rewrite Join_split_go; [done|done|lia].
Qed.

Lemma has_byte_rev_app a s1 s2 :
  has_byte a (String.rev_app s1 s2) = has_byte a s1 || has_byte a s2.
Proof.
  revert s2. induction s1 as [|c s1 IH]; intros s2; simpl; [done|].
  rewrite IH. simpl. destruct (decide (c = a)); simpl; [|done].
  by rewrite orb_true_r.
Qed.

Lemma HasPrefix_byte a c s :
  strings.HasPrefix (String c s) (String a "") = bool_decide (a = c).
Proof. simpl. destruct (decide (a = c)); [|by rewrite bool_decide_eq_false_2].
  rewrite bool_decide_eq_true_2 by done. by destruct s. Qed.

Lemma split_go_byte a s : ∀ cur,
  has_byte a cur = false →
  Forall (λ x, has_byte a x = false) (strings.split_go (String a "") 0 cur s)
  ∧ length (strings.split_go (String a "") 0 cur s) = S (count_byte a s).
Proof.
  induction s as [|c s IH]; intros cur Hcur.
  - simpl. split; [|done]. constructor; [|done].
    unfold String.rev. rewrite has_byte_rev_app, Hcur. done.
  - cbn [strings.split_go count_byte]. rewrite HasPrefix_byte.
    destruct (decide (c = a)) as [->|Hne].
    + rewrite bool_decide_eq_true_2 by done. simpl.
      destruct (IH "" eq_refl) as [H1 H2]. split; [|by rewrite H2].
      constructor; [|done]. unfold String.rev.
      by rewrite has_byte_rev_app, Hcur.
    + rewrite bool_decide_eq_false_2 by congruence.
      apply IH. simpl. by rewrite decide_False.
Qed.

Lemma Split_byte a s :
  Forall (λ x, has_byte a x = false) (strings.Split s (String a ""))
  ∧ length (strings.Split s (String a "")) = S (count_byte a s).
Proof. by apply split_go_byte. Qed.

Lemma Split_no_separator a s :
  has_byte a s = false → strings.Split s (String a "") = [s].
Proof.
  intros H. pose proof (Join_Split s (String a "") ltac:(done)) as HJ.
  destruct (Split_byte a s) as [_ Hlen].
  assert (count_byte a s = 0%nat) as Hc.
  { clear -H. induction s as [|c s IH]; simpl in *; [done|].
    destruct (decide (c = a)); [done|auto]. }
  rewrite Hc in Hlen.
  destruct (strings.Split s (String a "")) as [|x [|y l]]; simplify_eq/=.
  done.
Qed.

Lemma Join_snoc l n sep :
  l ≠ [] → strings.Join (l ++ [n]) sep = strings.Join l sep +:+ sep +:+ n.
Proof.
  induction l as [|x l IH]; [done|]. intros _.
  destruct l as [|y l].
  - reflexivity.
  - change ((x :: y :: l) ++ [n]) with (x :: ((y :: l) ++ [n])).
    rewrite Join_cons by done. rewrite IH by done.
    rewrite (Join_cons x (y :: l)) by done.
    by rewrite !append_assoc.
Qed.

Lemma base_name_spec r :
  ∃ n, base_name r = Some n
       ∧ has_byte "/" n = false
       ∧ if has_byte "/" r then ∃ pre, r = pre +:+ "/" +:+ n else r = n.
Proof.
  unfold base_name.
  destruct (Split_byte "/" r) as [Hall Hlen].
  pose proof (Join_Split r "/" ltac:(done)) as HJ.
  change (strings.Split r (String "/" "")) with (strings.Split r "/") in *.
  destruct (has_byte "/" r) eqn:Hb.
  - destruct (strings.Split r "/") as [|x l] using rev_ind; [done|].
    clear IHl. rewrite last_snoc. exists x. split; [done|].
    apply Forall_app in Hall as [_ Hx]. inversion_clear Hx as [|? ? Hx' _].
    split; [done|].
    destruct l as [|y l].
    + simpl in *. subst x. congruence.
    + rewrite Join_snoc in HJ by done. eauto.
  - rewrite (Split_no_separator "/" r Hb). exists r. by repeat split.
Qed.

(** ** More on [calculateSiteName] *)

Lemma elem_of_base_names ts n :
  n ∈ base_names ts
  ↔ ∃ t r, t ∈ ts ∧ r ∈ triage.Repos t ∧ base_name r = Some n.
Proof.
  unfold base_names. rewrite list_elem_of_omap. split.
  - intros (r & Hr & Hn). apply list_elem_of_join in Hr as (rs & Hr & Hrs).
    apply list_elem_of_fmap in Hrs as (t & -> & Ht). eauto.
  - intros (t & r & Ht & Hr & Hn). exists r. split; [|done].
    apply list_elem_of_join. exists (triage.Repos t). split; [done|].
    apply list_elem_of_fmap. eauto.
Qed.

Lemma mark_repos_true rs : ∀ seen seen',
  mark_repos seen rs = Some seen' →
  (∀ n v, seen !! n = Some v → v = true) →
  ∀ n v, seen' !! n = Some v → v = true.
Proof.
  induction rs as [|r rs IH]; intros seen seen' Hm Hseen; simpl in Hm.
  - by simplify_eq.
  - destruct (mark_repo_spec seen r) as (n0 & _ & Hr). rewrite Hr in Hm.
    simpl in Hm. apply (IH _ _ Hm). intros n v.
    rewrite lookup_insert. destruct (decide (n0 = n)); [congruence|apply Hseen].
Qed.

Lemma mark_rules_true ts : ∀ seen seen',
  mark_rules seen ts = Some seen' →
  (∀ n v, seen !! n = Some v → v = true) →
  ∀ n v, seen' !! n = Some v → v = true.
Proof.
  induction ts as [|t ts IH]; intros seen seen' Hm Hseen; simpl in Hm.
  - by simplify_eq.
  - destruct (mark_repos seen (triage.Repos t)) as [seen1|] eqn:H1; [|done].
    simpl in Hm. apply (IH _ _ Hm). by apply (mark_repos_true _ _ _ H1).
Qed.

Lemma mark_rules_set ts :
  mark_rules ∅ ts = Some (gset_to_gmap true (list_to_set (base_names ts))).
Proof.
  destruct (mark_rules_spec ts ∅) as (seen & Hm & Hseen).
  rewrite Hm. f_equal. apply map_eq. intros n.
  rewrite lookup_gset_to_gmap.
  destruct (seen !! n) as [v|] eqn:Hn.
  - assert (v = true) as ->.
    { eapply (mark_rules_true ts ∅ seen Hm); [|done]. intros ? ?.
      by rewrite lookup_empty. }
    rewrite option_guard_True; [done|].
    apply elem_of_list_to_set, elem_of_base_names.
    destruct (Hseen n) as [[H|H] _]; [by eauto| |done].
    rewrite lookup_empty in H. by destruct H.
  - rewrite option_guard_False; [done|].
    intros Hin%elem_of_list_to_set%elem_of_base_names.
    destruct (Hseen n) as [_ H]. destruct H as [v Hv]; [by right|congruence].
Qed.

Lemma calculateSiteName_set w ts :
  calculateSiteName w ts
  = Some (strings.Join
            (range_order w (gset_to_gmap true (list_to_set (base_names ts))))
            " + ").
Proof. unfold calculateSiteName. by rewrite mark_rules_set. Qed.

(** [calculateSiteName] never panics: the index [len(parts)-1] is in range
    for every repository name, the empty one too, and so [sn] returns a
    name for every list of rules. *)
Theorem site_name_never_panics fl w ts :
  is_Some (calculateSiteName w ts) ∧ ∃ name, sn fl w ts = ([], Ret name).
Proof.
  split; [|apply sn_returns]. rewrite calculateSiteName_set. eauto.
Qed.

(** Two lists of rules with the same set of base names, in any order and
    with any repetition, fill the same map, and the two site names, of two
    runs that may range over it in two orders, join the same names: each
    joins a list without duplicates of exactly these base names, and the
    two lists are permutations of each other. *)
Theorem site_name_of_base_names w1 w2 ts1 ts2 :
  range_fair w1 → range_fair w2 →
  list_to_set (base_names ts1) =@{gset string} list_to_set (base_names ts2) →
  mark_rules ∅ ts1 = mark_rules ∅ ts2
  ∧ ∃ names1 names2,
      calculateSiteName w1 ts1 = Some (strings.Join names1 " + ")
      ∧ calculateSiteName w2 ts2 = Some (strings.Join names2 " + ")
      ∧ NoDup names1
      ∧ (∀ n, n ∈ names1 ↔ n ∈ base_names ts1)
      ∧ names1 ≡ₚ names2.
Proof.
  intros Hfair1 Hfair2 Hset. split; [by rewrite !mark_rules_set, Hset|].
  rewrite !calculateSiteName_set, <- Hset.
  set (seen := gset_to_gmap true (list_to_set (base_names ts1))).
  exists (range_order w1 seen), (range_order w2 seen).
  split; [done|]. split; [done|]. split; [|split].
  - rewrite (Hfair1 seen). apply NoDup_fst_map_to_list.
  - intros n. rewrite (Hfair1 seen), elem_of_keys. unfold seen.
    rewrite lookup_gset_to_gmap. split.
    + intros [v Hv]. destruct (decide (n ∈ base_names ts1)); [done|].
      rewrite option_guard_False in Hv; [done|].
      by intros ?%elem_of_list_to_set.
    + intros Hn. rewrite option_guard_True; [by eexists|].
      by apply elem_of_list_to_set.
  - by rewrite (Hfair1 seen), (Hfair2 seen).
Qed.

Lemma range_fair_w_reversed : range_fair w_reversed.
Proof. intros m. simpl. apply reverse_Permutation. Qed.

Lemma site_name_of_base_names_witness :
  range_fair w_good ∧ range_fair w_reversed
  ∧ list_to_set (base_names rules_example)
    =@{gset string}
    list_to_set (base_names
       [ {| triage.Repos := ["fork/triage-party"] |};
         {| triage.Repos := ["a/minikube"; "b/minikube"; "minikube"] |} ])
  ∧ calculateSiteName w_good rules_example = Some "minikube + triage-party"
  ∧ calculateSiteName w_reversed
      [ {| triage.Repos := ["fork/triage-party"] |};
        {| triage.Repos := ["a/minikube"; "b/minikube"; "minikube"] |} ]
    = Some "triage-party + minikube".
Proof.
  assert (list_to_set (base_names rules_example)
          =@{gset string}
          list_to_set (base_names
            [ {| triage.Repos := ["fork/triage-party"] |};
              {| triage.Repos := ["a/minikube"; "b/minikube"; "minikube"] |} ]))
    as H by (vm_compute; reflexivity).
  split; [exact range_fair_w_good|]. split; [exact range_fair_w_reversed|].
  split; [exact H|].
  destruct (site_name_of_base_names w_good w_reversed _ _
              range_fair_w_good range_fair_w_reversed H) as [_ _].
  split; reflexivity.
Defined.

(** Without any repository the site name is empty, and with one base name,
    however many repositories have it, the site name is that base name with
    no separator. *)
Theorem site_name_small w ts :
  range_fair w →
  (base_names ts = [] → calculateSiteName w ts = Some "")
  ∧ (∀ n, list_to_set (base_names ts) =@{gset string} {[n]} →
       calculateSiteName w ts = Some n).
Proof.
  intros Hfair. split.
  - intros He. rewrite calculateSiteName_set, He. simpl.
    rewrite gset_to_gmap_empty.
    pose proof (Hfair ∅) as Hp. rewrite map_to_list_empty in Hp.
    apply Permutation_nil_r in Hp. by rewrite Hp.
  - intros n Hn. rewrite calculateSiteName_set, Hn, gset_to_gmap_singleton.
    pose proof (Hfair {[n := true]}) as Hp.
    rewrite map_to_list_singleton in Hp. simpl in Hp.
    apply Permutation_singleton_r in Hp. by rewrite Hp.
Qed.

Lemma site_name_small_witness :
  range_fair w_good
  ∧ calculateSiteName w_good [ {| triage.Repos := [] |} ] = Some ""
  ∧ calculateSiteName w_good
      [ {| triage.Repos := ["a/minikube"; "b/minikube"] |};
        {| triage.Repos := ["minikube"] |} ] = Some "minikube".
Proof.
  split; [exact range_fair_w_good|].
  split.
  - destruct (site_name_small w_good [ {| triage.Repos := [] |} ]
                range_fair_w_good) as [H _].
    apply H. reflexivity.
  - destruct (site_name_small w_good
                [ {| triage.Repos := ["a/minikube"; "b/minikube"] |};
                  {| triage.Repos := ["minikube"] |} ]
                range_fair_w_good) as [_ H].
    apply H. vm_compute. reflexivity.
Defined.

(** The names that the site name joins hold no slash, and there are as many
    of them as there are distinct base names. *)
Theorem site_name_components w ts :
  range_fair w →
  ∃ names,
    calculateSiteName w ts = Some (strings.Join names " + ")
    ∧ Forall (λ n, has_byte "/" n = false) names
    ∧ length names = size (list_to_set (base_names ts) : gset string).
Proof.
  intros Hfair. rewrite calculateSiteName_set.
  set (seen := gset_to_gmap true (list_to_set (base_names ts))).
  exists (range_order w seen). split; [done|]. split.
  - apply Forall_forall. intros n Hn. rewrite (Hfair seen) in Hn.
    apply elem_of_keys in Hn as [v Hv]. unfold seen in Hv.
    apply lookup_gset_to_gmap_Some in Hv as [Hv _].
    apply elem_of_list_to_set, elem_of_base_names in Hv
      as (t & r & _ & _ & Hr).
    destruct (base_name_spec r) as (n' & Hn' & Hb & _). congruence.
  - rewrite (Hfair seen), length_fmap, length_map_to_list.
    rewrite <- (size_dom (D:=gset string)). unfold seen.
    by rewrite dom_gset_to_gmap.
Qed.

Lemma site_name_components_witness :
  range_fair w_good
  ∧ calculateSiteName w_good rules_example
    = Some (strings.Join ["minikube"; "triage-party"] " + ")
  ∧ size (list_to_set (base_names rules_example) : gset string) = 2%nat.
Proof.
  split; [exact range_fair_w_good|].
  destruct (site_name_components w_good rules_example range_fair_w_good)
    as (names & _ & _ & _).
  split; reflexivity.
Defined.

(** ** [findPath] *)

Lemma findPath_run w p :
  ∃ tr p', findPath w p = (tr, Ret p')
    ∧ (p' = p ∨ p' = "../../" +:+ p)
    ∧ (stat_ok w p = true → p' = p ∧ tr = [])
    ∧ (p' ≠ p → stat_ok w p' = true)
    ∧ (stat_ok w p = false →
       (∃ wd, getwd w = inr wd ∧ filepath.Base wd = "server") →
       stat_ok w ("../../" +:+ p) = true → p' = "../../" +:+ p)
    ∧ (tr ≠ [] → ∃ err, getwd w = inl err).
Proof.
  unfold findPath. destruct (stat_ok w p) eqn:Hp.
  { exists [], p. repeat split; auto; done. }
  destruct (getwd w) as [err|wd] eqn:Hwd.
  { eexists _, p. split; [reflexivity|]. repeat split; auto; try done.
    - intros _ (wd & ? & _). done.
    - eauto. }
  destruct (decide (filepath.Base wd = "server")) as [Hb|Hb].
  - destruct (stat_ok w ("../../" +:+ p)) eqn:Htp.
    + exists [], ("../../" +:+ p). repeat split; auto; done.
    + exists [], p. repeat split; auto; done.
  - exists [], p. repeat split; auto; try done.
    intros _ (wd' & ? & ?) _. congruence.
Qed.

(** [findPath] always returns, either the path it was given or that path
    under ["../../"]; it returns the given path when that exists, and a
    path that is not the given one exists.  The fallback is taken when the
    given path does not exist, the working directory is named [server] and
    the path exists two levels up.  It logs only when [os.Getwd] fails. *)
Theorem findPath_finds w p :
  ∃ tr p', findPath w p = (tr, Ret p')
    ∧ (p' = p ∨ p' = "../../" +:+ p)
    ∧ (stat_ok w p = true → p' = p ∧ tr = [])
    ∧ (p' ≠ p → stat_ok w p' = true)
    ∧ (stat_ok w p = false →
       (∃ wd, getwd w = inr wd ∧ filepath.Base wd = "server") →
       stat_ok w ("../../" +:+ p) = true → p' = "../../" +:+ p)
    ∧ (tr ≠ [] → ∃ err, getwd w = inl err).
Proof. apply findPath_run. Qed.

Lemma findPath_finds_witness :
  findPath w_in_server "site/" = ([], Ret "../../site/")
  ∧ findPath w_good "site/" = ([], Ret "site/")
  ∧ findPath (with_files (λ _, false) (inl "getwd: no such file") w_good) "site/"
    = ([EvErrorf "crazy: %v" [AErr (Some "getwd: no such file")]], Ret "site/").
Proof.
  destruct (findPath_finds w_in_server "site/") as (tr & p' & _).
  repeat split; reflexivity.
Defined.

(** [findPath] is idempotent: the path it returns is returned again when
    it is looked up in the same run. *)
Theorem findPath_idempotent w p p' :
  returned (findPath w p) = Some p' → returned (findPath w p') = Some p'.
Proof.
  destruct (findPath_run w p) as (tr & q & Hrun & Hq & _ & Hex & _).
  unfold returned at 1. rewrite Hrun. simpl. intros [= <-].
  destruct (decide (q = p)) as [->|Hne]; [by rewrite Hrun|].
  destruct (findPath_run w q) as (tr' & q' & Hrun' & _ & Hs & _).
  destruct (Hs (Hex Hne)) as [-> _]. by rewrite Hrun'.
Qed.

Lemma findPath_idempotent_witness :
  returned (findPath w_in_server "config.yaml") = Some "../../config.yaml"
  ∧ returned (findPath w_in_server "../../config.yaml") = Some "../../config.yaml".
Proof.
  split; [reflexivity|].
  exact (findPath_idempotent w_in_server "config.yaml" "../../config.yaml" eq_refl).
Defined.

(** ** Splitting and joining *)

(** Joining the pieces of a split at a non-empty separator, of one byte
    or more, with that separator gives the string back. *)
Theorem Split_then_Join s sep :
  sep ≠ "" → strings.Join (strings.Split s sep) sep = s.
Proof.
  destruct sep as [|a sep]; [done|]. intros _.
  unfold strings.Split. rewrite Join_split_go; [done|done|lia].
Qed.

Lemma Split_then_Join_witness :
  " + " ≠ ""
  ∧ strings.Split "minikube + triage-party" " + " = ["minikube"; "triage-party"]
  ∧ strings.Join (strings.Split "minikube + triage-party" " + ") " + "
    = "minikube + triage-party".
Proof.
  split; [done|]. split; [reflexivity|].
  by apply (Split_then_Join "minikube + triage-party" " + ").
Defined.

(** The pieces of a split at a one-byte separator do not hold that byte,
    and there is one piece more than there are separators in the string:
    empty pieces are kept.  A string without the separator is its only
    piece. *)
Theorem Split_pieces a s :
  Forall (λ x, has_byte a x = false) (strings.Split s (String a ""))
  ∧ length (strings.Split s (String a "")) = S (count_byte a s)
  ∧ (has_byte a s = false → strings.Split s (String a "") = [s]).
Proof.
  destruct (Split_byte a s) as [H1 H2]. split; [done|]. split; [done|].
  apply Split_no_separator.
Qed.

(** The base name of a repository is what follows its last slash, or the
    whole name when there is no slash; it holds no slash. *)
Theorem base_name_is_last_component r :
  ∃ n, base_name r = Some n
       ∧ has_byte "/" n = false
       ∧ if has_byte "/" r then ∃ pre, r = pre +:+ "/" +:+ n else r = n.
Proof. apply base_name_spec. Qed.

(** With a non-empty [--repos] value the repositories that [main] hands to
    [triage.New] join back, with commas, to that value; none of them holds
    a comma, there is one more of them than there are commas, and a value
    without a comma is the only repository. *)
Theorem repos_override_pieces fl :
  reposOverride fl ≠ "" →
  strings.Join (triage.Config_Repos (cfg fl)) "," = reposOverride fl
  ∧ Forall (λ r, has_byte "," r = false) (triage.Config_Repos (cfg fl))
  ∧ length (triage.Config_Repos (cfg fl))
    = S (count_byte "," (reposOverride fl))
  ∧ (has_byte "," (reposOverride fl) = false →
     triage.Config_Repos (cfg fl) = [reposOverride fl]).
Proof.
  intros Hne. unfold cfg. rewrite decide_True by done.
  cbn [triage.Config_Repos].
  destruct (Split_byte "," (reposOverride fl)) as [H1 H2].
  split; [by apply Join_Split|]. split; [done|]. split; [done|].
  apply Split_no_separator.
Qed.

Lemma repos_override_pieces_witness :
  reposOverride fl_dry ≠ ""
  ∧ length (triage.Config_Repos (cfg fl_dry)) = 2%nat
  ∧ strings.Join (triage.Config_Repos (cfg fl_dry)) ","
    = "kubernetes/minikube,google/triage-party".
Proof.
  split; [done|].
  destruct (repos_override_pieces fl_dry) as (H1 & _ & H2 & _); [done|].
  split; [exact H2|exact H1].
Defined.

(** ** [filepath.Base] *)

Lemma has_byte_of_list a l :
  has_byte a (String.string_of_list_ascii l) = true ↔ a ∈ l.
Proof.
  induction l as [|c l IH]; simpl.
  - split; [done|]. by intros ?%elem_of_nil.
  - destruct (decide (c = a)) as [->|Hne].
    + split; [|done]. intros _. left.
    + rewrite IH. split; [by right|].
      intros [?|?]%elem_of_cons; [congruence|done].
Qed.

Lemma take_element_no_separator cs :
  filepath.Separator ∉ filepath.take_element cs.
Proof.
  induction cs as [|c cs IH]; simpl; [by intros ?%elem_of_nil|].
  destruct (decide (c = filepath.Separator)); [by intros ?%elem_of_nil|].
  intros [?|?]%elem_of_cons; [congruence|done].
Qed.

Lemma list_ascii_of_append s t :
  String.list_ascii_of_string (s +:+ t)
  = String.list_ascii_of_string s ++ String.list_ascii_of_string t.
Proof.
  induction s as [|c s IH]; [done|].
  rewrite append_cons. simpl. by rewrite IH.
Qed.

(** [filepath.Base] never returns the empty string; what it returns holds
    no separator unless it is ["/"]; and a trailing separator on a
    non-empty path does not change it. *)
Theorem Base_shape path :
  filepath.Base path ≠ ""
  ∧ (has_byte filepath.Separator (filepath.Base path) = true →
     filepath.Base path = "/")
  ∧ (path ≠ "" → filepath.Base (path +:+ "/") = filepath.Base path).
Proof.
  split; [|split].
  - unfold filepath.Base. destruct (decide (path = "")); [done|].
    simpl. by destruct (decide _).
  - unfold filepath.Base. destruct (decide (path = "")); [done|].
    simpl. destruct (decide _) as [|Hne]; [done|].
    intros H%has_byte_of_list. rewrite elem_of_reverse in H.
    by apply take_element_no_separator in H.
  - intros Hne. unfold filepath.Base.
    rewrite (decide_False (P := path = "")) by done.
    rewrite decide_False by (by destruct path).
    rewrite list_ascii_of_append. simpl.
    rewrite reverse_snoc. simpl. done.
Qed.

Lemma Base_shape_witness :
  "/src/cmd/server" ≠ ""
  ∧ filepath.Base "/src/cmd/server/" = "server"
  ∧ filepath.Base "/src/cmd/server" = "server".
Proof.
  split; [done|].
  destruct (Base_shape "/src/cmd/server") as (_ & _ & H).
  split; [|reflexivity].
  change (filepath.Base ("/src/cmd/server" +:+ "/") = "server").
  rewrite H by done. reflexivity.
Defined.

(** ** More on the listen address *)

Lemma pretty_N_go_not_empty x s : s ≠ "" → pretty_N_go x s ≠ "".
Proof.
  revert s. induction (N.lt_wf_0 x) as [x _ IH]; intros s Hs.
  assert (x = 0 ∨ 0 < x)%N as [->|?] by lia.
  - by rewrite pretty_N_go_0.
  - rewrite pretty_N_go_step by done. apply IH; [by apply N.div_lt|done].
Qed.

Lemma pretty_Z_not_empty (n : Z) : pretty n ≠ "".
Proof.
  destruct n as [|p|p]; [done| |done].
  unfold pretty, pretty_Z, pretty, pretty_positive, pretty, pretty_N.
  rewrite decide_False by done.
  rewrite pretty_N_go_step by done. by apply pretty_N_go_not_empty.
Qed.

(** The listen address is a colon and a non-empty rest, never the colon
    alone; with [PORT] unset or empty, two different [--port] values give
    two different addresses. *)
Theorem listen_address_shape fl w :
  (∃ rest, listenAddr fl w = ":" +:+ rest ∧ rest ≠ "")
  ∧ (os_Getenv w "PORT" = "" →
     ∀ fl', listenAddr fl w = listenAddr fl' w → port fl = port fl').
Proof.
  unfold listenAddr, fmt.Sprintf_colon_s, fmt.Sprintf_colon_d. split.
  - destruct (decide (":" +:+ os_Getenv w "PORT" = ":")) as [|Hne].
    + exists (pretty (port fl)). split; [done|apply pretty_Z_not_empty].
    + exists (os_Getenv w "PORT"). split; [done|]. intros E. by rewrite E in Hne.
  - intros -> fl' H. rewrite !decide_True in H by done.
    injection H as H. by apply (inj pretty).
Qed.

Lemma listen_address_shape_witness :
  os_Getenv w_good "PORT" = ""
  ∧ listenAddr fl_serve w_good = ":8080"
  ∧ (listenAddr fl_serve w_good = listenAddr fl_dry w_good →
     port fl_serve = port fl_dry).
Proof.
  split; [reflexivity|]. split; [reflexivity|].
  destruct (listen_address_shape fl_serve w_good) as [_ H].
  exact (H eq_refl fl_dry).
Defined.

(** ** More on the start-up sequence *)

Lemma wp_findPath_eq w p (Q : list event → result string → Prop) :
  (∀ p', findPath w p = ([], Ret p') → Q [] (Ret p')) →
  (∀ p' err,
     findPath w p = ([EvErrorf "crazy: %v" [AErr (Some err)]], Ret p') →
     Q [EvErrorf "crazy: %v" [AErr (Some err)]] (Ret p')) →
  wp (findPath w p) Q.
Proof.
  intros H1 H2. destruct (findPath_cases w p) as [p' [H | [err H]]];
    rewrite H; apply wp_pair; auto.
Qed.

(** As [wp_step], and what [findPath] returned is kept. *)
Ltac wp_step_eq :=
  lazymatch goal with
  | |- wp (findPath _ _) _ =>
      apply wp_findPath_eq; [intros ? ?|intros ? ? ?]; cbv beta iota
  | _ => wp_step
  end.

Ltac wp_all_eq m :=
  let tr := fresh "tr" in
  let r := fresh "r" in
  let H := fresh "Hrun" in
  destruct m as [tr r] eqn:H; cbn [fst snd];
  revert tr r H; refine (wp_run _ _ _);
  unfold main; repeat wp_step_eq; cbn [app].

Ltac startup_facts :=
  unfold startup_ok; repeat split; eauto; congruence.

Lemma main_serving ddp fl w :
  ((∃ addr, EvListenAndServe addr ∈ (main ddp fl w).1) →
     dryRun fl = false ∧ startup_ok fl w)
  ∧ (dryRun fl = false → startup_ok fl w →
     EvGo GoSignal ∈ (main ddp fl w).1 ∧ EvGo GoLoop ∈ (main ddp fl w).1
     ∧ last (main ddp fl w).1 = Some (EvListenAndServe (listenAddr fl w))
     ∧ count is_ListenAndServe (main ddp fl w).1 = 1%nat
     ∧ (main ddp fl w).2
       = match listen_ret w with None => Blocked | Some e => Panic e end)
  ∧ ((main ddp fl w).2 = Exit 0 ∨ (main ddp fl w).2 = Exit 1
     ∨ (main ddp fl w).2 = Blocked
     ∨ ∃ err, listen_ret w = Some err ∧ (main ddp fl w).2 = Panic err)
  ∧ (∀ g, EvGo g ∈ (main ddp fl w).1 → dryRun fl = false ∧ startup_ok fl w).
Proof.
  wp_all (main ddp fl w).
  all: split;
    [intros [addr Ha]; elem_inv; solve [split; [done|startup_facts]]|].
  all: split;
    [intros Hd (? & [? ?] & ? & ? & ? & [? ?] & ?); try congruence;
     solve [simpl; split; [by repeat constructor|];
            split; [by repeat constructor|]; done]|].
  all: split; [by eauto 6|].
  all: intros g Hg; elem_inv; solve [split; [done|startup_facts]].
Qed.

(** When the configuration file cannot be opened the process exits with
    status 1 on the fatal log that names the [--config] value and the
    error; the cache is not created, initialized or saved and no later
    stage is reached. *)
Theorem open_error_is_fatal ddp fl w e :
  open_err w = Some e →
  (main ddp fl w).2 = Exit 1
  ∧ Forall (λ ev, uses_cache ev = false ∧ later_stage ev = false)
      (main ddp fl w).1
  ∧ (∀ p, EvOpen p ∈ (main ddp fl w).1 →
       last (main ddp fl w).1
       = Some (EvExitf "open %s: %v" [AStr (configPath fl); AErr (Some e)])).
Proof.
  intros He. wp_all (main ddp fl w); trace_facts.
Qed.

Lemma open_error_is_fatal_witness :
  open_err (with_open_err "no such file" w_good) = Some "no such file"
  ∧ EvOpen "config/examples/minikube.yaml"
    ∈ (main quoted_path fl_serve (with_open_err "no such file" w_good)).1
  ∧ (main quoted_path fl_serve (with_open_err "no such file" w_good)).2 = Exit 1.
Proof.
  split; [reflexivity|]. split; [in_trace|].
  by destruct (open_error_is_fatal quoted_path fl_serve
                 (with_open_err "no such file" w_good) "no such file" eq_refl)
    as (H & _).
Defined.

(** When [Load] returns an error the process exits with status 1 on the
    fatal log of that error; no rule is listed, nothing is saved and no
    updater, goroutine, site or server is started. *)
Theorem load_error_is_fatal ddp fl w e :
  load_err w = Some e →
  (main ddp fl w).2 = Exit 1
  ∧ Forall (λ ev, is_ListRules ev = false ∧ is_Save ev = false
                  ∧ starts_serving ev = false) (main ddp fl w).1
  ∧ (EvLoad ∈ (main ddp fl w).1 →
       last (main ddp fl w).1
       = Some (EvExitf "load from %s: %v"
                 [AStr (configPath fl); AErr (Some e)])).
Proof.
  intros He. wp_all (main ddp fl w); trace_facts.
Qed.

Lemma load_error_is_fatal_witness :
  load_err (with_load_err "yaml: line 3" w_good) = Some "yaml: line 3"
  ∧ EvLoad ∈ (main quoted_path fl_serve (with_load_err "yaml: line 3" w_good)).1
  ∧ (main quoted_path fl_serve (with_load_err "yaml: line 3" w_good)).2 = Exit 1.
Proof.
  split; [reflexivity|]. split; [in_trace|].
  by destruct (load_error_is_fatal quoted_path fl_serve
                 (with_load_err "yaml: line 3" w_good) "yaml: line 3" eq_refl)
    as (H & _).
Defined.

(** When [ListRules] returns an error the process exits with status 1 on
    the fatal log of that error; the site name is not computed into a log,
    nothing is saved and no updater, goroutine, site or server is started. *)
Theorem list_rules_error_is_fatal ddp fl w e :
  list_rules w = inl e →
  (main ddp fl w).2 = Exit 1
  ∧ Forall (λ ev, is_Save ev = false ∧ starts_serving ev = false)
      (main ddp fl w).1
  ∧ (EvListRules ∈ (main ddp fl w).1 →
       last (main ddp fl w).1
       = Some (EvExitf "list rules: %v" [AErr (Some e)])).
Proof.
  intros He. wp_all (main ddp fl w); trace_facts.
Qed.

Lemma list_rules_error_is_fatal_witness :
  list_rules (with_list_rules (inl "unknown filter") w_good) = inl "unknown filter"
  ∧ EvListRules
    ∈ (main quoted_path fl_serve (with_list_rules (inl "unknown filter") w_good)).1
  ∧ (main quoted_path fl_serve (with_list_rules (inl "unknown filter") w_good)).2
    = Exit 1.
Proof.
  split; [reflexivity|]. split; [in_trace|].
  by destruct (list_rules_error_is_fatal quoted_path fl_serve
                 (with_list_rules (inl "unknown filter") w_good)
                 "unknown filter" eq_refl) as (H & _).
Defined.

Lemma startup_order_bool ddp fl w :
  precedes is_MustReadToken is_Open (main ddp fl w).1 = true
  ∧ precedes is_Open is_InitcacheNew (main ddp fl w).1 = true
  ∧ precedes is_InitcacheNew is_Initialize (main ddp fl w).1 = true
  ∧ precedes is_Initialize is_TriageNew (main ddp fl w).1 = true
  ∧ precedes is_TriageNew is_Load (main ddp fl w).1 = true
  ∧ precedes is_Load is_ListRules (main ddp fl w).1 = true
  ∧ precedes is_ListRules is_Save (main ddp fl w).1 = true
  ∧ (count is_MustReadToken (main ddp fl w).1 ≤ 1)%nat
  ∧ (count is_Open (main ddp fl w).1 ≤ 1)%nat
  ∧ (count is_InitcacheNew (main ddp fl w).1 ≤ 1)%nat
  ∧ (count is_Initialize (main ddp fl w).1 ≤ 1)%nat
  ∧ (count is_TriageNew (main ddp fl w).1 ≤ 1)%nat
  ∧ (count is_Load (main ddp fl w).1 ≤ 1)%nat
  ∧ (count is_ListRules (main ddp fl w).1 ≤ 1)%nat
  ∧ (count is_Save (main ddp fl w).1 ≤ 1)%nat.
Proof.
  wp_all (main ddp fl w); simpl; repeat split; done || lia.
Qed.

(** The start-up runs in one order and each of its eight steps at most
    once: the token is read before the configuration file is opened, the
    file is opened before the cache is created, the cache is created before
    it is initialized and initialized before the party is created, the
    party is created before the rules are loaded, and the rules are loaded
    before they are listed and listed before the save. *)
Theorem startup_order ddp fl w :
  Precedes is_MustReadToken is_Open (main ddp fl w).1
  ∧ Precedes is_Open is_InitcacheNew (main ddp fl w).1
  ∧ Precedes is_InitcacheNew is_Initialize (main ddp fl w).1
  ∧ Precedes is_Initialize is_TriageNew (main ddp fl w).1
  ∧ Precedes is_TriageNew is_Load (main ddp fl w).1
  ∧ Precedes is_Load is_ListRules (main ddp fl w).1
  ∧ Precedes is_ListRules is_Save (main ddp fl w).1
  ∧ (count is_MustReadToken (main ddp fl w).1 ≤ 1)%nat
  ∧ (count is_Open (main ddp fl w).1 ≤ 1)%nat
  ∧ (count is_InitcacheNew (main ddp fl w).1 ≤ 1)%nat
  ∧ (count is_Initialize (main ddp fl w).1 ≤ 1)%nat
  ∧ (count is_TriageNew (main ddp fl w).1 ≤ 1)%nat
  ∧ (count is_Load (main ddp fl w).1 ≤ 1)%nat
  ∧ (count is_ListRules (main ddp fl w).1 ≤ 1)%nat
  ∧ (count is_Save (main ddp fl w).1 ≤ 1)%nat.
Proof.
  destruct (startup_order_bool ddp fl w)
    as (H1 & H2 & H3 & H4 & H5 & H6 & H7 & H8).
  repeat (split; [by apply precedes_sound|]). exact H8.
Qed.

(** ** The continuous mode *)

(** In continuous mode, after a start-up without error, [main] starts both
    goroutines and ends in [http.ListenAndServe], called once with the
    listen address: it waits there, or panics with the error that the call
    returns.  [main] reaches the call in no other run. *)
Theorem serving_run ddp fl w :
  ((∃ addr, EvListenAndServe addr ∈ (main ddp fl w).1) →
     dryRun fl = false ∧ startup_ok fl w)
  ∧ (dryRun fl = false → startup_ok fl w →
     EvGo GoSignal ∈ (main ddp fl w).1 ∧ EvGo GoLoop ∈ (main ddp fl w).1
     ∧ last (main ddp fl w).1 = Some (EvListenAndServe (listenAddr fl w))
     ∧ count is_ListenAndServe (main ddp fl w).1 = 1%nat
     ∧ (main ddp fl w).2
       = match listen_ret w with None => Blocked | Some e => Panic e end).
Proof.
  destruct (main_serving ddp fl w) as (H1 & H2 & _). by split.
Qed.

Lemma startup_ok_w_good : startup_ok fl_serve w_good.
Proof. unfold startup_ok. simpl. repeat split; eauto. Qed.

Lemma serving_run_witness :
  dryRun fl_serve = false
  ∧ startup_ok fl_serve (with_listen_ret "address already in use" w_good)
  ∧ (main quoted_path fl_serve (with_listen_ret "address already in use" w_good)).2
    = Panic "address already in use"
  ∧ (main quoted_path fl_serve w_good).2 = Blocked.
Proof.
  split; [reflexivity|].
  assert (startup_ok fl_serve (with_listen_ret "address already in use" w_good))
    as Hok by (unfold startup_ok; simpl; repeat split; eauto).
  split; [exact Hok|].
  destruct (serving_run quoted_path fl_serve
              (with_listen_ret "address already in use" w_good)) as [_ H].
  destruct (H eq_refl Hok) as (_ & _ & _ & _ & Hr).
  split; [exact Hr|reflexivity].
Defined.

(** [main] exits with status 0 in the dry run only, after a start-up
    without error and a [RunOnce] without error, and it never returns: in
    continuous mode it leaves the exit to the goroutines. *)
Theorem main_exit_zero ddp fl w :
  is_Some (read_token w) →
  ((main ddp fl w).2 = Exit 0
   ↔ dryRun fl = true ∧ startup_ok fl w ∧ run_once_err w = None)
  ∧ (main ddp fl w).2 ≠ Ret tt.
Proof.
  intros [tok Htok]. wp_all (main ddp fl w).
  all: split; [|done].
  all: split;
    [try discriminate; intros _; solve [repeat split; startup_facts]
    |intros (? & (? & [? ?] & ? & ? & ? & [? ?] & ?) & ?); congruence].
Qed.

Lemma main_exit_zero_witness :
  is_Some (read_token w_good)
  ∧ (main quoted_path fl_dry w_good).2 = Exit 0
  ∧ (main quoted_path fl_serve w_good).2 ≠ Exit 0.
Proof.
  split; [by eexists|]. split; [reflexivity|].
  destruct (main_exit_zero quoted_path fl_serve w_good) as [H _]; [by eexists|].
  intros H0. apply H in H0 as [H0 _]. discriminate H0.
Defined.

Lemma wrap64_int64 z : int64 (wrap64 z).
Proof.
  unfold int64, wrap64.
  pose proof (Z.mod_pos_bound (z + 2 ^ 63) (2 ^ 64) ltac:(lia)). lia.
Qed.

Lemma wrap64_small z : int64 z → wrap64 z = z.
Proof.
  unfold int64, wrap64. intros H. rewrite Z.mod_small by lia. lia.
Qed.

(** The site is created once the handlers' directories are known: its
    base directory is what [findPath] returns for [--site], the static
    files are served from the [static] directory under the same base
    directory, and its warning age is twice [--max-refresh] as a 64-bit
    integer, which is the exact double as long as [--max-refresh] stays
    under 2^62 nanoseconds. *)
Theorem site_configuration ddp fl w c :
  EvSiteNew c ∈ (main ddp fl w).1 →
  returned (findPath w (siteDir fl)) = Some (site.BaseDirectory c)
  ∧ EvHandle "/static/" [site.BaseDirectory c; "static"] ∈ (main ddp fl w).1
  ∧ site.WarnAge c = wrap64 (2 * maxRefresh fl)
  ∧ int64 (site.WarnAge c)
  ∧ (- 2 ^ 62 ≤ maxRefresh fl < 2 ^ 62 → site.WarnAge c = 2 * maxRefresh fl).
Proof.
  wp_all_eq (main ddp fl w); intros Hc; elem_inv.
  all: cbn [site.BaseDirectory site.WarnAge].
  all: repeat match goal with
         | H1 : findPath ?w ?p = _, H2 : findPath ?w ?p = _ |- _ =>
             rewrite H1 in H2; simplify_eq
         end.
  all: split;
    [unfold returned;
     by match goal with
        | H : findPath _ (siteDir _) = _ |- _ => rewrite H
        end|].
  all: split; [by repeat constructor|].
  all: split; [done|]. all: split; [apply wrap64_int64|].
  all: intros Hr; apply wrap64_small; unfold int64; lia.
Qed.

Lemma site_configuration_witness :
  EvSiteNew {| site.BaseDirectory := "site/"; site.WarnAge := 7200000000000;
               site.Name := "minikube + triage-party" |}
  ∈ (main quoted_path fl_serve w_good).1
  ∧ EvHandle "/static/" ["site/"; "static"] ∈ (main quoted_path fl_serve w_good).1
  ∧ wrap64 (2 * 2 ^ 62) = - 2 ^ 63.
Proof.
  assert (EvSiteNew {| site.BaseDirectory := "site/";
                       site.WarnAge := 7200000000000;
                       site.Name := "minikube + triage-party" |}
          ∈ (main quoted_path fl_serve w_good).1) as H by in_trace.
  split; [exact H|].
  destruct (site_configuration quoted_path fl_serve w_good _ H) as (_ & H2 & _).
  split; [exact H2|reflexivity].
Defined.

(** ** More on the goroutines *)

Lemma go_signal_ends w o :
  ends_goroutine (go_signal w).2 = Some o ↔ signals w ≠ [] ∧ o = Exited 0.
Proof.
  unfold go_signal. destruct (signals w) as [|sig sigs]; simpl.
  - split; [done|]. by intros [? _].
  - destruct (shutdown_save_err w); simpl.
    + split; [intros H; by injection H as <-|]. intros H. by destruct H as [_ ->].
    + split; [intros H; by injection H as <-|]. intros H. by destruct H as [_ ->].
Qed.

Lemma go_loop_ends w o :
  ends_goroutine (go_loop w).2 = Some o ↔ loop_ret w = Some None ∧ o = Exited 1.
Proof.
  unfold go_loop. destruct (loop_ret w) as [[e|]|]; simpl.
  - split; [done|]. intros [H _]. discriminate H.
  - split; [intros H; by injection H as <-|]. intros H. by destruct H as [_ ->].
  - split; [done|]. intros [H _]. discriminate H.
Qed.

(** The goroutine of the update loop waits as long as [Loop] runs and
    ends the process in one case only, with status 1 and the log
    ["loop failed"]: when [Loop] returns the nil error. *)
Theorem loop_goroutine_endings w :
  (loop_ret w = None → go_loop w = ([EvLoop], Blocked))
  ∧ (loop_ret w = Some None →
     go_loop w = ([EvLoop; EvExitf "loop failed: %v" [AErr None]], Exit 1))
  ∧ (∀ o, ends_goroutine (go_loop w).2 = Some o
          ↔ loop_ret w = Some None ∧ o = Exited 1).
Proof.
  split; [|split; [|intros o; apply go_loop_ends]].
  - intros H. unfold go_loop. by rewrite H.
  - intros H. unfold go_loop. by rewrite H.
Qed.

Lemma loop_goroutine_endings_witness :
  loop_ret (with_loop_ret None w_good) = Some None
  ∧ go_loop (with_loop_ret None w_good)
    = ([EvLoop; EvExitf "loop failed: %v" [AErr None]], Exit 1)
  ∧ go_loop w_good = ([EvLoop], Blocked).
Proof.
  split; [reflexivity|].
  destruct (loop_goroutine_endings (with_loop_ret None w_good)) as (_ & H & _).
  split; [exact (H eq_refl)|reflexivity].
Defined.

(** The goroutine of the signals waits without a trace as long as no
    signal arrives, and it acts on the first signal only: it saves once,
    and what it does is the same whatever signals follow. *)
Theorem signal_goroutine_first_only w :
  (signals w = [] → go_signal w = ([], Blocked))
  ∧ (∀ sig sigs, signals w = sig :: sigs →
       count is_Save (go_signal w).1 = 1%nat
       ∧ go_signal w = go_signal (with_signal sig (shutdown_save_err w) w)).
Proof.
  unfold go_signal. split.
  - by intros ->.
  - intros sig sigs ->. simpl. by destruct (shutdown_save_err w).
Qed.

Lemma signal_goroutine_first_only_witness :
  signals (with_signal SIGINT None w_good) = [SIGINT]
  ∧ count is_Save (go_signal (with_signal SIGINT None w_good)).1 = 1%nat
  ∧ go_signal w_good = ([], Blocked).
Proof.
  split; [reflexivity|].
  destruct (signal_goroutine_first_only (with_signal SIGINT None w_good))
    as [_ H].
  destruct (H SIGINT [] eq_refl) as [H1 _].
  split; [exact H1|reflexivity].
Defined.

(** ** The process *)

(** Once the token is read, the process ends with the exit status 0 or 1,
    or by the panic of [main] on the error that [http.ListenAndServe]
    returned; it ends in no other way. *)
Theorem process_endings ddp fl w o :
  is_Some (read_token w) →
  process_ends ddp fl w o →
  o = Exited 0 ∨ o = Exited 1 ∨ ∃ err, listen_ret w = Some err ∧ o = Crashed err.
Proof.
  intros _ [Hm | (g & _ & Hg)].
  - destruct (main_serving ddp fl w) as (_ & _ & Hr & _).
    destruct Hr as [Hr | [Hr | [Hr | (err & Hl & Hr)]]];
      rewrite Hr in Hm; simpl in Hm; simplify_eq; eauto.
  - destruct g; simpl in Hg.
    + apply go_signal_ends in Hg as [_ ->]. by left.
    + apply go_loop_ends in Hg as [_ ->]. by right; left.
Qed.

Lemma process_endings_witness :
  is_Some (read_token w_good)
  ∧ process_ends quoted_path fl_serve (with_signal SIGTERM None w_good) (Exited 0)
  ∧ process_ends quoted_path fl_serve
      (with_listen_ret "address already in use" w_good)
      (Crashed "address already in use").
Proof.
  split; [by eexists|].
  assert (process_ends quoted_path fl_serve (with_signal SIGTERM None w_good)
            (Exited 0)) as H.
  { right. exists GoSignal. split; [in_trace|reflexivity]. }
  split; [exact H|].
  destruct (process_endings quoted_path fl_serve
              (with_signal SIGTERM None w_good) (Exited 0)
              ltac:(by eexists) H) as [_ | [Hx | (err & _ & Hx)]];
    [|discriminate Hx|discriminate Hx].
  left. reflexivity.
Defined.

(** The process keeps serving exactly in the runs of the continuous mode
    where the start-up has no error, [http.ListenAndServe] does not return,
    no signal arrives and [Loop] does not return the nil error. *)
Theorem keeps_serving_iff ddp fl w :
  keeps_serving ddp fl w
  ↔ dryRun fl = false ∧ startup_ok fl w ∧ listen_ret w = None
    ∧ signals w = [] ∧ loop_ret w ≠ Some None.
Proof.
  destruct (main_serving ddp fl w) as (H1 & H2 & _ & _).
  unfold keeps_serving. split.
  - intros (Hl & Hr & Hno). destruct (H1 Hl) as [Hd Hok].
    destruct (H2 Hd Hok) as (Hgs & Hgl & _ & _ & Hres).
    split; [done|]. split; [done|]. split; [|split].
    + rewrite Hr in Hres. by destruct (listen_ret w).
    + destruct (signals w) as [|sig sigs] eqn:Hs; [done|].
      destruct (Hno (Exited 0)). right. exists GoSignal. split; [done|].
      apply go_signal_ends. by rewrite Hs.
    + intros Hloop. destruct (Hno (Exited 1)). right. exists GoLoop.
      split; [done|]. by apply go_loop_ends.
  - intros (Hd & Hok & Hl & Hs & Hloop).
    destruct (H2 Hd Hok) as (Hgs & Hgl & Hlast & _ & Hres).
    rewrite Hl in Hres. split; [|split; [done|]].
    + exists (listenAddr fl w). by apply last_Some_elem_of.
    + intros o [Hm | (g & _ & Hg)].
      * by rewrite Hres in Hm.
      * destruct g; simpl in Hg.
        -- apply go_signal_ends in Hg as [? _]. done.
        -- apply go_loop_ends in Hg as [? _]. done.
Qed.

Lemma keeps_serving_iff_witness :
  keeps_serving quoted_path fl_serve w_good
  ∧ ¬ keeps_serving quoted_path fl_serve (with_signal SIGTERM None w_good).
Proof.
  split.
  - apply (keeps_serving_iff quoted_path fl_serve w_good).
    split; [reflexivity|]. split; [exact startup_ok_w_good|].
    repeat split; done.
  - intros H.
    apply (keeps_serving_iff quoted_path fl_serve
             (with_signal SIGTERM None w_good)) in H
      as (_ & _ & _ & Hs & _).
    discriminate Hs.
Defined.


(** ** The cache path *)


